(** * All-in adjusted EV calculator (ev.py): equity estimator and EV attribution

    A shallow embedding of the computational core of [ev.py]:
    [deck], [hand_strength], [monte_carlo_equity], [process_hand] and the
    aggregation loop of [main], followed by the properties stated about them.

    Modelling conventions.
    - A card is the Python string token itself (['Ah'], ['Ks'], ...).
    - Python [int] is [Z]; Python [float] is modelled by exact rationals [Q]
      (rounding is not modelled; numeric results are compared with [==]).
      The worked figures are checked again on binary64 numbers.
    - A raised exception is the [Raise] constructor of [result]; nothing on
      the modelled paths catches one.
    - The process-wide generator of the [random] module is an explicit state
      threaded through every function that can reach [random.sample]. *)

From Stdlib Require Import Ascii String QArith Lqa Floats.
From stdpp Require Import base list gmap strings.

Set Warnings "-inexact-float".

Local Open Scope Z_scope.

(** ** Exceptions and fallible computations *)

Inductive exn : Set :=
  | ValueError
  | IndexError
  | ZeroDivisionError.

Inductive result (A : Type) : Type :=
  | Ok (a : A)
  | Raise (e : exn).

Arguments Ok {A} a.
Arguments Raise {A} e.

Global Instance result_ret : MRet result := fun _ a => Ok a.

Global Instance result_bind : MBind result := fun _ _ f m =>
  match m with
  | Ok a => f a
  | Raise e => Raise e
  end.

Definition returns {A} (m : result A) : Prop := exists a, m = Ok a.

(** ** Cards and the deck *)

Abbreviation card := string.

Definition RANKS : string := "23456789TJQKA".
Definition SUITS : string := "shdc".

Definition chars (s : string) : list ascii := list_ascii_of_string s.

(** [r + s for r in RANKS for s in SUITS] *)
Definition deck : list card :=
  r ← chars RANKS; s ← chars SUITS; [String r (String s EmptyString)].

(** [c[0]]: the first character of a string, [IndexError] on the empty one. *)
Definition str_head (c : string) : result ascii :=
  match c with
  | EmptyString => Raise IndexError
  | String a _ => Ok a
  end.

(** [s.index(ch)] for a one-character [ch]: position of the first
    occurrence, [ValueError] when there is none. *)
Fixpoint find_char (ch : ascii) (s : list ascii) (i : Z) : result Z :=
  match s with
  | [] => Raise ValueError
  | a :: s' => if Ascii.eqb a ch then Ok i else find_char ch s' (i + 1)
  end.

Definition str_index (s : string) (ch : ascii) : result Z :=
  find_char ch (chars s) 0.

(** [max(l)] on a list of integers: [ValueError] on the empty list. *)
Definition py_max (l : list Z) : result Z :=
  match l with
  | [] => Raise ValueError
  | x :: r => Ok (fold_left Z.max r x)
  end.

(** [RANKS.index(c[0])] *)
Definition rank_index (c : card) : result Z :=
  ch ← str_head c; str_index RANKS ch.

(** [[f(c) for c in cards]] with a fallible [f]: evaluated left to right,
    the first exception aborts the comprehension. *)
Fixpoint comprehension {A B} (f : A -> result B) (l : list A) : result (list B) :=
  match l with
  | [] => Ok []
  | a :: l' => b ← f a; bs ← comprehension f l'; Ok (b :: bs)
  end.

Definition hand_strength (cards : list card) : result Z :=
  ranks ← comprehension rank_index cards;
  py_max ranks.

(** ** The random generator

    [random.seed] and [random.sample] belong to Python's library, not to the
    program.  A generator is a state, the state a seed fixes, and the draw
    [random.sample] makes from a population.  Its contract is kept apart in
    [GeneratorLaws]: [random.sample(population, k)] returns [k] elements
    taken from distinct positions of [population] (a draw without
    replacement); asking for zero elements returns the empty list and leaves
    the state alone. *)

Class Generator : Type := {
  gen_state : Type;
  seed_state : Z -> gen_state;
  draw : gen_state -> list card -> nat -> list card * gen_state
}.

Class GeneratorLaws (G : Generator) : Prop := {
  draw_length : forall g pop k,
    (k <= length pop)%nat -> length (draw g pop k).1 = k;
  draw_without_replacement : forall g pop k,
    (k <= length pop)%nat -> exists rest, (draw g pop k).1 ++ rest ≡ₚ pop;
  draw_nothing : forall g pop, draw g pop 0 = ([], g)
}.

(** A concrete generator, to run the model: the state is a number below
    1009, a draw of [k] takes the first [k] elements of the population
    rotated by the state, and each non-empty draw moves the state on. *)
Definition rotate_left {A} (n : nat) (l : list A) : list A :=
  drop (n mod length l) l ++ take (n mod length l) l.

Definition rot_draw (g : Z) (pop : list card) (k : nat) : list card * Z :=
  match k with
  | O => ([], g)
  | S _ => (take k (rotate_left (Z.to_nat g) pop), (7 * g + 3) mod 1009)
  end.

Definition rot_generator : Generator := {|
  gen_state := Z;
  seed_state := fun s => s mod 1009;
  draw := rot_draw
|}.

Section model.

Context {G : Generator}.

(** [random.sample(population, k)]: [ValueError] when [k] is negative or
    larger than the population. *)
Definition random_sample (g : gen_state) (pop : list card) (k : Z)
    : result (list card * gen_state) :=
  if bool_decide (0 <= k <= Z.of_nat (length pop))
  then Ok (draw g pop (Z.to_nat k))
  else Raise ValueError.

(** ** Monte Carlo equity *)

(** The loop state of [monte_carlo_equity]: the two counters and the
    generator.  [dealt] is a ghost field, absent from the program: it records
    the completed board of every showdown evaluated so far, oldest first. *)
Record sim_state : Type := {
  hero_wins : Z;
  ties : Z;
  dealt : list (list card);
  rng : gen_state
}.

(** [if seed: random.seed(seed)]: the test is on the truth value of [seed],
    which is false for [None] and for [0]. *)
Definition reseed (seed : option Z) (g : gen_state) : gen_state :=
  match seed with
  | Some s => if s =? 0 then g else seed_state s
  | None => g
  end.

(** [set(hero_cards + villain_cards + board)] *)
Definition dead (hero_cards villain_cards board : list card) : gset card :=
  list_to_set (hero_cards ++ villain_cards ++ board).

(** [[c for c in deck() if c not in dead]] *)
Definition deck_left (hero_cards villain_cards board : list card) : list card :=
  filter (fun c => c ∉ dead hero_cards villain_cards board) deck.

(** One pass through the body of the [for] loop. *)
Definition iteration (hero_cards villain_cards board left : list card)
    (st : sim_state) : result sim_state :=
  let need := 5 - Z.of_nat (length board) in
  '(sample, g') ← random_sample (rng st) left need;
  let full_board := board ++ sample in
  hero_best ← hand_strength (hero_cards ++ full_board);
  villain_best ← hand_strength (villain_cards ++ full_board);
  let log := dealt st ++ [full_board] in
  if hero_best >? villain_best then
    Ok {| hero_wins := hero_wins st + 1; ties := ties st;
          dealt := log; rng := g' |}
  else if hero_best =? villain_best then
    Ok {| hero_wins := hero_wins st; ties := ties st + 1;
          dealt := log; rng := g' |}
  else
    Ok {| hero_wins := hero_wins st; ties := ties st;
          dealt := log; rng := g' |}.

(** [for _ in range(n): body] *)
Fixpoint repeat_loop {S} (n : nat) (body : S -> result S) (st : S) : result S :=
  match n with
  | O => Ok st
  | S n' => st' ← body st; repeat_loop n' body st'
  end.

(** Everything up to, and excluding, the final division. *)
Definition simulate (hero_cards villain_cards board : list card)
    (mc_iters : Z) (seed : option Z) (g : gen_state) : result sim_state :=
  let g0 := reseed seed g in
  let left := deck_left hero_cards villain_cards board in
  repeat_loop (Z.to_nat mc_iters)
    (iteration hero_cards villain_cards board left)
    {| hero_wins := 0; ties := 0; dealt := []; rng := g0 |}.

(** [(hero_wins + ties * 0.5) / mc_iters] *)
Definition final_ratio (wins tied mc_iters : Z) : result Q :=
  if mc_iters =? 0 then Raise ZeroDivisionError
  else Ok ((inject_Z wins + inject_Z tied * (1 # 2)) / inject_Z mc_iters)%Q.

Definition monte_carlo_equity (hero_cards villain_cards board : list card)
    (mc_iters : Z) (seed : option Z) (g : gen_state) : result (Q * gen_state) :=
  st ← simulate hero_cards villain_cards board mc_iters seed g;
  eq ← final_ratio (hero_wins st) (ties st) mc_iters;
  Ok (eq, rng st).

(** ** Hands and EV rows *)

Record Player : Type := {
  name : string;
  cards : list card
}.

(** [players] is a Python dict, iterated in insertion order: an association
    list whose keys are pairwise distinct. *)
Record Hand : Type := {
  hand_id : string;
  date : Z;
  hero : string;
  players : list (string * Player);
  board : list card;
  rake : Q;
  total_pot : Q;
  results : gmap string Q
}.

Record Args : Type := {
  mc_iters : Z;
  seed : option Z;
  ev_before_rake : bool
}.

(** The dict [process_hand] returns. *)
Record EVRow : Type := {
  row_hand_id : string;
  row_date : Z;
  row_hero : string;
  equity : Q;
  eligible_pot : Q;
  hero_invested : Q;
  ev_contrib : Q;
  hero_net : Q
}.

(** [d.get(k)] *)
Definition dict_get {V} (d : list (string * V)) (k : string) : option V :=
  snd <$> List.find (fun kv => String.eqb kv.1 k) d.

(** The [for name, pl in hand.players.items()] loop with its [break]. *)
Definition first_other (d : list (string * Player)) (h : string) : option Player :=
  snd <$> List.find (fun kv => negb (String.eqb kv.1 h)) d.

(** [not p.cards] *)
Definition no_cards (p : Player) : bool :=
  match cards p with [] => true | _ => false end.

(** Lines 192-206: the row built once the equity is known. *)
Definition ev_row (hand : Hand) (args : Args) (eq : Q) : EVRow :=
  let eligible := (total_pot hand - (if ev_before_rake args then 0 else rake hand))%Q in
  let invested := (eligible / 2)%Q in
  {| row_hand_id := hand_id hand;
     row_date := date hand;
     row_hero := hero hand;
     equity := eq;
     eligible_pot := eligible;
     hero_invested := invested;
     ev_contrib := (eq * eligible - invested)%Q;
     hero_net := default 0%Q (results hand !! hero hand) |}.

Definition process_hand (hand : Hand) (args : Args) (g : gen_state)
    : result (option EVRow * gen_state) :=
  match dict_get (players hand) (hero hand), first_other (players hand) (hero hand) with
  | Some hero_p, Some villain =>
      if no_cards hero_p || no_cards villain then Ok (None, g)
      else
        '(eq, g') ← monte_carlo_equity (cards hero_p) (cards villain)
                      (board hand) (mc_iters args) (seed args) g;
        Ok (Some (ev_row hand args eq), g')
  | _, _ => Ok (None, g)
  end.

(** ** The session: lines 262-275 of [main] *)

Record Summary : Type := {
  net_total : Q;
  ev_total : Q;
  diff : Q
}.

(** [sum(...)]: left to right from [0]. *)
Definition py_sum (l : list Q) : Q := fold_left Qplus l 0%Q.

(** The [for h in hands] loop: [rows] grows by [append]. *)
Fixpoint collect_rows (hands : list Hand) (args : Args)
    (rows : list EVRow) (g : gen_state) : result (list EVRow * gen_state) :=
  match hands with
  | [] => Ok (rows, g)
  | h :: hs =>
      '(r, g') ← process_hand h args g;
      match r with
      | Some row => collect_rows hs args (rows ++ [row]) g'
      | None => collect_rows hs args rows g'
      end
  end.

(** [if not rows: return], then the three totals of the summary line. *)
Definition summarize (rows : list EVRow) : option Summary :=
  match rows with
  | [] => None
  | _ =>
      let net := py_sum (hero_net <$> rows) in
      let ev := py_sum (ev_contrib <$> rows) in
      Some {| net_total := net; ev_total := ev; diff := (ev - net)%Q |}
  end.

(** [main] from the hands [read_hands] returned and the parsed arguments:
    the rows, and the totals when there is a row. *)
Definition main (hands : list Hand) (args : Args) (g : gen_state)
    : result (list EVRow * option Summary * gen_state) :=
  '(rows, g') ← collect_rows hands args [] g;
  Ok (rows, summarize rows, g').

End model.

(** ** The row arithmetic on binary64 numbers

    Lines 192-194 and the two sums of [main] once more, on the floats the
    program computes with, to check the worked figures against rounding. *)

Definition attribute_float (total_pot rake : float) (ev_before_rake : bool)
    (eq : float) : float * float * float :=
  let eligible_pot := (total_pot - (if ev_before_rake then 0 else rake))%float in
  let hero_invested := (eligible_pot / 2)%float in
  (eligible_pot, hero_invested, (eq * eligible_pot - hero_invested)%float).

Definition py_sum_float (l : list float) : float :=
  fold_left PrimFloat.add l 0%float.

(** ** The cumulative series of [plot_graph]

    Lines 231-237: the running totals of [hero_net] and [ev_contrib], one
    point per row.  The guard of line 227 returns before them when
    matplotlib is missing or there is no row. *)

Fixpoint cumulative (rows : list EVRow) (total_net total_ev : Q)
    (cum_net cum_ev : list Q) : list Q * list Q :=
  match rows with
  | [] => (cum_net, cum_ev)
  | r :: rs =>
      let total_net' := (total_net + hero_net r)%Q in
      let total_ev' := (total_ev + ev_contrib r)%Q in
      cumulative rs total_net' total_ev'
        (cum_net ++ [total_net']) (cum_ev ++ [total_ev'])
  end.

Definition plot_series (has_mpl : bool) (rows : list EVRow)
    : option (list Q * list Q) :=
  match rows with
  | [] => None
  | _ => if has_mpl then Some (cumulative rows 0 0 [] []) else None
  end.

(** ** Reading hand histories

    [Player(name, cards)] stores [cards or []].  [parse_hh_file] and
    [read_hands] are modelled over the text of the files: the regular
    expression split, [str.split], the clock and the file system are the
    library's and the machine's, and are parameters here.  [now t] is what
    the [t]-th reading of the clock returns. *)

Definition new_Player (name : string) (cards : option (list card)) : Player :=
  {| name := name;
     cards := match cards with Some (c :: cs) => c :: cs | _ => [] end |}.

(** What a path names: a regular file with its text, a directory with the
    texts of the files [glob("*.txt")] yields, in that order, or neither. *)
Inductive fs_entry : Type :=
  | RegularFile (text : string)
  | Directory (texts : list string)
  | NoEntry.

Section parser.

(** [re.split(r"PokerStars Hand #", text)], [blk.split()] and
    [dt.datetime.now()]. *)
Variable split_hands : string -> list string.
Variable words : string -> list string.
Variable now : nat -> Z.

(** The body of the [try]: [blk.split()[0]] raises [IndexError] on a block
    without a word, before the clock is read. *)
Definition parse_block (blk : string) (t : nat) : result (Hand * nat) :=
  match words blk with
  | [] => Raise IndexError
  | w :: _ =>
      Ok ({| hand_id := w;
             date := now t;
             hero := "Hero";
             players := [("Hero"%string, new_Player "Hero" None)];
             board := [];
             rake := 0;
             total_pot := 0;
             results := ∅ |}, S t)
  end.

(** [for blk in blocks[1:]] with its [except Exception: continue]. *)
Fixpoint parse_blocks (blks : list string) (hands : list Hand) (t : nat)
    : list Hand * nat :=
  match blks with
  | [] => (hands, t)
  | blk :: rest =>
      match parse_block blk t with
      | Ok (h, t') => parse_blocks rest (hands ++ [h]) t'
      | Raise _ => parse_blocks rest hands t
      end
  end.

Definition parse_hh_file (text : string) (t : nat) : list Hand * nat :=
  parse_blocks (tail (split_hands text)) [] t.

(** The inner loop of [read_hands] over the files of a directory. *)
Fixpoint parse_files (texts : list string) (all_hands : list Hand) (t : nat)
    : list Hand * nat :=
  match texts with
  | [] => (all_hands, t)
  | text :: rest =>
      let '(hands, t') := parse_hh_file text t in
      parse_files rest (all_hands ++ hands) t'
  end.

Fixpoint read_paths (fs : string -> fs_entry) (paths : list string)
    (all_hands : list Hand) (t : nat) : list Hand * nat :=
  match paths with
  | [] => (all_hands, t)
  | p :: rest =>
      match fs p with
      | RegularFile text =>
          let '(hands, t') := parse_hh_file text t in
          read_paths fs rest (all_hands ++ hands) t'
      | Directory texts =>
          let '(all_hands', t') := parse_files texts all_hands t in
          read_paths fs rest all_hands' t'
      | NoEntry => read_paths fs rest all_hands t
      end
  end.

Definition read_hands (fs : string -> fs_entry) (paths : list string) (t : nat)
    : list Hand * nat :=
  read_paths fs paths [] t.

End parser.

(** ** Vocabulary of the properties *)

(** A card token of the deck: a rank character followed by a suit character. *)
Definition valid_card (c : card) : Prop := c ∈ deck.

(** [r] is the rank index of a highest-ranked card of [cs]. *)
Definition highest_rank (cs : list card) (r : Z) : Prop :=
  (exists c, c ∈ cs /\ rank_index c = Ok r) /\
  (forall c, c ∈ cs -> exists rc, rank_index c = Ok rc /\ rc <= r).

(** Two cards of the same rank, whatever their suits. *)
Definition same_rank (c c' : card) : Prop := str_head c = str_head c'.

(** The outcome of the comparison the loop body makes on the completed
    board [fb]: the hero's strength is strictly greater, or the two
    strengths are equal. *)
Definition beats (hero_cards villain_cards fb : list card) : bool :=
  match hand_strength (hero_cards ++ fb), hand_strength (villain_cards ++ fb) with
  | Ok h, Ok v => h >? v
  | _, _ => false
  end.

Definition level (hero_cards villain_cards fb : list card) : bool :=
  match hand_strength (hero_cards ++ fb), hand_strength (villain_cards ++ fb) with
  | Ok h, Ok v => h =? v
  | _, _ => false
  end.

(** The number of elements of [l] that pass [p]. *)
Definition count {A} (p : A -> bool) (l : list A) : Z :=
  Z.of_nat (length (List.filter p l)).

(** [s] is a draw without replacement from [pop]: its elements come from
    distinct positions of [pop]. *)
Definition drawn_without_replacement (s pop : list card) : Prop :=
  exists rest, s ++ rest ≡ₚ pop.

(** [fb] completes [board] to five cards with cards drawn from the deck
    minus the dead cards. *)
Definition completes (hero_cards villain_cards board fb : list card) : Prop :=
  exists s, fb = board ++ s /\
            Z.of_nat (length s) = 5 - Z.of_nat (length board) /\
            drawn_without_replacement s (deck_left hero_cards villain_cards board).

(** The direct, non-sampled comparison of the two holdings on [board]. *)
Definition showdown (hero_cards villain_cards board : list card) : result Q :=
  h ← hand_strength (hero_cards ++ board);
  v ← hand_strength (villain_cards ++ board);
  Ok (if h >? v then 1%Q else if h =? v then (1 # 2)%Q else 0%Q).

(** Two of the three card lists share a card. *)
Definition overlapping (hero_cards villain_cards board : list card) : Prop :=
  exists c, (c ∈ hero_cards /\ c ∈ villain_cards) \/
            (c ∈ hero_cards /\ c ∈ board) \/
            (c ∈ villain_cards /\ c ∈ board).

(** The hero has no entry in the player mapping. *)
Definition hero_missing (hand : Hand) : Prop :=
  hero hand ∉ (players hand).*1.

(** Every entry of the player mapping is the hero's. *)
Definition no_opponent (hand : Hand) : Prop :=
  Forall (fun kv => kv.1 = hero hand) (players hand).

(** Hole cards that were not shown: [Player] stores them as the empty list. *)
Definition unknown_cards (p : Player) : Prop := cards p = [].

Definition not_applicable (hand : Hand) : Prop :=
  hero_missing hand \/
  no_opponent hand \/
  (exists p, dict_get (players hand) (hero hand) = Some p /\ unknown_cards p) \/
  (exists p, first_other (players hand) (hero hand) = Some p /\ unknown_cards p).

(** The negation of the test on line 188. *)
Definition qualifies (hand : Hand) : bool :=
  match dict_get (players hand) (hero hand), first_other (players hand) (hero hand) with
  | Some hero_p, Some villain => negb (no_cards hero_p || no_cards villain)
  | _, _ => false
  end.

(** A hand on which the equity computation can run: valid tokens, at most
    five board cards, and few enough hole cards to leave a completion. *)
Definition playable (hand : Hand) : Prop :=
  exists hero_p villain,
    dict_get (players hand) (hero hand) = Some hero_p /\
    first_other (players hand) (hero hand) = Some villain /\
    Forall valid_card (cards hero_p ++ cards villain ++ board hand) /\
    (length (board hand) <= 5)%nat /\
    (length (cards hero_p) + length (cards villain) <= 47)%nat.

(** A row [process_hand] makes for [hand] from some generator state. *)
Definition row_of {G : Generator} (args : Args) (hand : Hand) (row : EVRow) : Prop :=
  exists g1 g2, process_hand hand args g1 = Ok (Some row, g2).

(** The first character of [c] is one of [RANKS]. *)
Definition has_rank (c : card) : Prop := returns (rank_index c).

(** [hand] with another player mapping. *)
Definition with_players (hand : Hand) (ps : list (string * Player)) : Hand :=
  {| hand_id := hand_id hand; date := date hand; hero := hero hand;
     players := ps; board := board hand; rake := rake hand;
     total_pot := total_pot hand; results := results hand |}.

(** The running sums of [l] from [acc]. *)
Fixpoint running (l : list Q) (acc : Q) : list Q :=
  match l with
  | [] => []
  | x :: l' => (acc + x)%Q :: running l' (acc + x)%Q
  end.

(** What [parse_hh_file] fills a hand with, its id and date apart. *)
Definition stub_hand (h : Hand) : Prop :=
  hero h = "Hero"%string /\
  players h = [("Hero"%string, {| name := "Hero"; cards := [] |})] /\
  board h = [] /\ rake h = 0%Q /\ total_pot h = 0%Q /\ results h = ∅.

(** ** Example data *)

(** The holdings and the complete board of the specification's example. *)
Definition ace_king : list card := ["Ah"; "Kd"].
Definition queens : list card := ["Qs"; "Qc"].
Definition river_board : list card := ["2h"; "3d"; "9c"; "Jd"; "Tc"].

(** Two holdings for an open board: king high against queen high. *)
Definition king_high : list card := ["Kh"; "2d"].
Definition queen_high : list card := ["Qs"; "2c"].

Definition hand_one : Hand := {|
  hand_id := "1001";
  date := 20240101;
  hero := "Hero";
  players := [("Hero", {| name := "Hero"; cards := king_high |});
              ("Villain", {| name := "Villain"; cards := queen_high |})];
  board := [];
  rake := 5;
  total_pot := 100;
  results := {[ "Hero" := 10%Q ]}
|}.

Definition hand_two : Hand := {|
  hand_id := "1002";
  date := 20240102;
  hero := "Hero";
  players := [("Villain", {| name := "Villain"; cards := ace_king |});
              ("Hero", {| name := "Hero"; cards := queens |})];
  board := river_board;
  rake := 0;
  total_pot := 10;
  results := {[ "Hero" := (-20)%Q; "Villain" := 20%Q ]}
|}.

(** A hand whose opponent did not show. *)
Definition hand_mucked : Hand := {|
  hand_id := "1003";
  date := 20240103;
  hero := "Hero";
  players := [("Hero", {| name := "Hero"; cards := ace_king |});
              ("Villain", {| name := "Villain"; cards := [] |})];
  board := river_board;
  rake := 1;
  total_pot := 40;
  results := {[ "Hero" := 19%Q ]}
|}.

(** A hand with six cards on the board. *)
Definition hand_long_board : Hand := {|
  hand_id := "1004";
  date := 20240104;
  hero := "Hero";
  players := [("Hero", {| name := "Hero"; cards := king_high |});
              ("Villain", {| name := "Villain"; cards := queen_high |})];
  board := river_board ++ ["Ts"];
  rake := 1;
  total_pot := 30;
  results := ∅
|}.

Definition run_args : Args :=
  {| mc_iters := 5; seed := Some 74; ev_before_rake := false |}.

(** The rows the model computes for the three example hands. *)
Definition example_rows : list EVRow :=
  Eval vm_compute in
    match main (G := rot_generator)
            [hand_one; hand_mucked; hand_two] run_args 0 with
    | Ok (rows, _, _) => rows
    | Raise _ => []
    end.

(** A boolean test of disjointness, to evaluate on concrete card lists. *)
Definition disjointb (l k : list card) : bool :=
  forallb (fun c => negb (bool_decide (c ∈ k))) l.

(** ** The concrete generator meets the contract *)

Lemma rotate_left_perm {A} (n : nat) (l : list A) : rotate_left n l ≡ₚ l.
Proof.
  unfold rotate_left. rewrite Permutation_app_comm. by rewrite take_drop.
Qed.

Lemma rot_draw_length g pop k :
  (k <= length pop)%nat -> length (rot_draw g pop k).1 = k.
Proof.
  intros Hk. destruct k as [|k]; [done|]. cbn [rot_draw fst].
  rewrite length_take, (Permutation_length (rotate_left_perm (Z.to_nat g) pop)).
  lia.
Qed.

Lemma rot_draw_sub g pop k :
  (k <= length pop)%nat -> exists rest, (rot_draw g pop k).1 ++ rest ≡ₚ pop.
Proof.
  intros _. destruct k as [|k]; cbn [rot_draw fst].
  - by exists pop.
  - exists (drop (S k) (rotate_left (Z.to_nat g) pop)).
    rewrite take_drop. apply rotate_left_perm.
Qed.

Global Instance rot_generator_laws : GeneratorLaws rot_generator.
Proof.
  split.
  - exact rot_draw_length.
  - exact rot_draw_sub.
  - done.
Qed.

(** ** The hand comparator *)

Lemma deck_ranks :
  Forall (fun c => exists r, rank_index c = Ok r /\ 0 <= r <= 12) deck.
Proof.
  repeat (apply Forall_cons; split;
          [eexists; split; [reflexivity | lia] |]).
  apply Forall_nil_2.
Qed.

Lemma valid_rank_index c :
  valid_card c -> exists r, rank_index c = Ok r /\ 0 <= r <= 12.
Proof. intros Hc. exact (proj1 (Forall_forall _ _) deck_ranks c Hc). Qed.

Lemma comprehension_ok {A B} (f : A -> result B) (l : list A) :
  Forall (fun a => returns (f a)) l ->
  exists bs, comprehension f l = Ok bs /\
             Forall2 (fun a b => f a = Ok b) l bs.
Proof.
  induction 1 as [|a l [b Hb] _ (bs & Hbs & Hall)]; cbn.
  - exists []. split; [done | constructor].
  - exists (b :: bs). rewrite Hb, Hbs. cbn. split; [done | by constructor].
Qed.

Lemma comprehension_ext {A B} (f : A -> result B) (l l' : list A) :
  Forall2 (fun a a' => f a = f a') l l' ->
  comprehension f l = comprehension f l'.
Proof.
  induction 1 as [|a a' l l' Ha _ IH]; cbn; [done|]. by rewrite Ha, IH.
Qed.

Lemma fold_max_ge (r : list Z) (x : Z) : x <= fold_left Z.max r x.
Proof.
  revert x. induction r as [|y r IH]; intros x; cbn; [lia|].
  specialize (IH (Z.max x y)). lia.
Qed.

Lemma fold_max_upper (r : list Z) (x : Z) :
  forall y, y ∈ r -> y <= fold_left Z.max r x.
Proof.
  revert x. induction r as [|z r IH]; intros x y Hy; cbn.
  - by apply elem_of_nil in Hy.
  - apply elem_of_cons in Hy as [->|Hy]; [|by apply IH].
    pose proof (fold_max_ge r (Z.max x z)). lia.
Qed.

Lemma fold_max_elem (r : list Z) (x : Z) :
  fold_left Z.max r x = x \/ fold_left Z.max r x ∈ r.
Proof.
  revert x. induction r as [|z r IH]; intros x; cbn; [by left|].
  destruct (IH (Z.max x z)) as [Heq|Hin].
  - rewrite Heq. destruct (Z.max_spec x z) as [[_ ->]|[_ ->]].
    + right. by left.
    + by left.
  - right. by right.
Qed.

Lemma py_max_spec (l : list Z) :
  l <> [] ->
  exists m, py_max l = Ok m /\ m ∈ l /\ forall y, y ∈ l -> y <= m.
Proof.
  destruct l as [|x r]; [done|]. intros _. cbn.
  eexists. split; [done|]. split.
  - destruct (fold_max_elem r x) as [->|Hin]; [by left | by right].
  - intros y [->|Hy]%elem_of_cons; [apply fold_max_ge | by apply fold_max_upper].
Qed.

Lemma highest_rank_unique cs r r' :
  highest_rank cs r -> highest_rank cs r' -> r = r'.
Proof.
  intros [(c & Hc & Hr) Hub] [(c' & Hc' & Hr') Hub'].
  destruct (Hub c' Hc') as (x & Hx & Hle).
  destruct (Hub' c Hc) as (y & Hy & Hle').
  rewrite Hr' in Hx. rewrite Hr in Hy. simplify_eq. lia.
Qed.

Lemma hand_strength_highest cs :
  cs <> [] -> Forall valid_card cs ->
  exists r, hand_strength cs = Ok r /\ 0 <= r <= 12 /\ highest_rank cs r.
Proof.
  intros Hne Hvalid.
  assert (Hret : Forall (fun c => returns (rank_index c)) cs).
  { eapply Forall_impl; [exact Hvalid|]. intros c Hc.
    destruct (valid_rank_index c Hc) as (r & Hr & _). by exists r. }
  destruct (comprehension_ok rank_index cs Hret) as (rs & Hrs & Hall).
  assert (Hrs_ne : rs <> []).
  { intros ->. apply Forall2_nil_inv_r in Hall. done. }
  destruct (py_max_spec rs Hrs_ne) as (m & Hm & Hin & Hub).
  exists m. unfold hand_strength. rewrite Hrs. cbn. split; [done|].
  assert (Hwit : exists c, c ∈ cs /\ rank_index c = Ok m).
  { apply list_elem_of_lookup in Hin as [i Hi].
    destruct (Forall2_lookup_r _ _ _ _ _ Hall Hi) as (c & Hc & Hcm).
    exists c. split; [|done]. apply list_elem_of_lookup. by exists i. }
  split.
  - destruct Hwit as (c & Hc & Hcm).
    destruct (valid_rank_index c) as (r & Hr & Hrange).
    { exact (proj1 (Forall_forall _ _) Hvalid c Hc). }
    rewrite Hcm in Hr. by simplify_eq.
  - split; [done|]. intros c Hc.
    apply list_elem_of_lookup in Hc as [i Hi].
    destruct (Forall2_lookup_l _ _ _ _ _ Hall Hi) as (rc & Hrc & Hcr).
    exists rc. split; [done|]. apply Hub, list_elem_of_lookup. by exists i.
Qed.

Lemma highest_rank_perm cs cs' r :
  cs ≡ₚ cs' -> highest_rank cs r -> highest_rank cs' r.
Proof.
  intros Hp [(c & Hc & Hr) Hub]. split.
  - exists c. by rewrite <- Hp.
  - intros c'. rewrite <- Hp. apply Hub.
Qed.

(** C2. On a non-empty list of valid card tokens [hand_strength] returns the
    rank index (between 0 for a deuce and 12 for an ace, whatever follows
    the rank character) of a highest-ranked card of the list.  The value
    does not change when suits are replaced (any list with the same rank
    characters, position by position), nor when the cards are reordered; and
    two such lists have equal strength exactly when their highest ranks are
    equal. *)
Theorem hand_strength_is_highest_rank (cs : list card) :
  cs <> [] -> Forall valid_card cs ->
  exists r,
    hand_strength cs = Ok r /\ 0 <= r <= 12 /\ highest_rank cs r /\
    (forall suit, rank_index (String "2" suit) = Ok 0 /\
                  rank_index (String "A" suit) = Ok 12) /\
    (forall cs', Forall2 same_rank cs cs' -> hand_strength cs' = Ok r) /\
    (forall cs', cs ≡ₚ cs' -> hand_strength cs' = Ok r) /\
    (forall cs2 r2, cs2 <> [] -> Forall valid_card cs2 -> highest_rank cs2 r2 ->
       (hand_strength cs = hand_strength cs2 <-> r = r2)).
Proof.
  intros Hne Hvalid.
  destruct (hand_strength_highest cs Hne Hvalid) as (r & Hr & Hrange & Hhigh).
  exists r. do 4 (split; [done|]). split; [|split].
  - intros cs' Hsame. rewrite <- Hr. unfold hand_strength.
    rewrite (comprehension_ext rank_index cs' cs); [done|].
    apply Forall2_flip. eapply Forall2_impl; [exact Hsame|].
    intros c c' Hcc. unfold rank_index. by rewrite Hcc.
  - intros cs' Hp.
    destruct (hand_strength_highest cs') as (r' & Hr' & _ & Hhigh').
    + intros ->. apply Permutation_nil_r in Hp. done.
    + by rewrite <- Hp.
    + rewrite Hr'. f_equal.
      apply (highest_rank_unique cs); [|done].
      eapply highest_rank_perm; [symmetry; exact Hp | done].
  - intros cs2 r2 Hne2 Hvalid2 Hhigh2.
    destruct (hand_strength_highest cs2) as (r' & Hr' & _ & Hhigh'); [done..|].
    rewrite Hr, Hr'.
    assert (r' = r2) as -> by (by apply (highest_rank_unique cs2)).
    split; [by intros [= ->] | by intros ->].
Qed.

(** ** The remaining deck *)

Lemma deck_NoDup : NoDup deck.
Proof. apply (bool_decide_unpack (NoDup deck)). vm_compute. exact I. Qed.

Lemma deck_length : length deck = 52%nat.
Proof. reflexivity. Qed.

Lemma deck_left_elem hero_cards villain_cards board c :
  c ∈ deck_left hero_cards villain_cards board <->
  c ∈ deck /\ c ∉ hero_cards ++ villain_cards ++ board.
Proof.
  unfold deck_left, dead. rewrite list_elem_of_filter.
  rewrite elem_of_list_to_set. tauto.
Qed.

Lemma deck_left_NoDup hero_cards villain_cards board :
  NoDup (deck_left hero_cards villain_cards board).
Proof. unfold deck_left. exact (NoDup_filter _ _ deck_NoDup). Qed.

(** At most one card leaves the deck for each dead card. *)
Lemma deck_left_length hero_cards villain_cards board :
  (52 <= length (deck_left hero_cards villain_cards board)
         + length (hero_cards ++ villain_cards ++ board))%nat.
Proof.
  unfold deck_left.
  set (gone := hero_cards ++ villain_cards ++ board).
  set (P := fun c : card => c ∉ dead hero_cards villain_cards board).
  pose proof (Permutation_length (filter_app_complement P deck)) as Hlen.
  rewrite length_app, deck_length in Hlen.
  assert (length (filter (fun c => ~ P c) deck) <= length gone)%nat; [|lia].
  apply submseteq_length, NoDup_submseteq.
  - exact (NoDup_filter _ _ deck_NoDup).
  - intros c [Hc _]%list_elem_of_filter. unfold P, dead in Hc.
    rewrite elem_of_list_to_set in Hc. by apply dec_stable in Hc.
Qed.

(** ** Showdowns on a completed board *)

Lemma count_nonneg {A} (p : A -> bool) (l : list A) : 0 <= count p l.
Proof. unfold count. lia. Qed.

Lemma count_exclusive {A} (p q : A -> bool) (l : list A) :
  (forall a, p a = true -> q a = false) ->
  count p l + count q l <= Z.of_nat (length l).
Proof.
  intros Hpq. unfold count. induction l as [|a l IH]; cbn; [lia|].
  destruct (p a) eqn:Hp, (q a) eqn:Hq; cbn; try lia.
  apply Hpq in Hp. congruence.
Qed.

Lemma beats_not_level hero_cards villain_cards fb :
  beats hero_cards villain_cards fb = true ->
  level hero_cards villain_cards fb = false.
Proof.
  unfold beats, level.
  destruct (hand_strength (hero_cards ++ fb)), (hand_strength (villain_cards ++ fb));
    try done. lia.
Qed.

Lemma drawn_elem s pop c : drawn_without_replacement s pop -> c ∈ s -> c ∈ pop.
Proof. intros [rest Hp] Hc. rewrite <- Hp. apply elem_of_app. by left. Qed.

Section equity_facts.

Context {G : Generator} {HG : GeneratorLaws G}.

Lemma random_sample_ok g pop k :
  0 <= k <= Z.of_nat (length pop) ->
  random_sample g pop k = Ok (draw g pop (Z.to_nat k)).
Proof. intros Hk. unfold random_sample. by rewrite bool_decide_eq_true_2. Qed.

Lemma random_sample_bad g pop k :
  ~ 0 <= k <= Z.of_nat (length pop) ->
  random_sample g pop k = Raise ValueError.
Proof. intros Hk. unfold random_sample. by rewrite bool_decide_eq_false_2. Qed.

(** What one pass of the loop body does when the board can be completed and
    every card in play is a valid token. *)
Lemma iteration_step hero_cards villain_cards board st :
  Forall valid_card (hero_cards ++ villain_cards ++ board) ->
  (length board <= 5)%nat ->
  (length hero_cards + length villain_cards <= 47)%nat ->
  let left := deck_left hero_cards villain_cards board in
  exists fb,
    completes hero_cards villain_cards board fb /\
    fb = board ++ (draw (rng st) left (5 - length board)).1 /\
    iteration hero_cards villain_cards board left st =
      Ok {| hero_wins := hero_wins st
                         + (if beats hero_cards villain_cards fb then 1 else 0);
            ties := ties st
                    + (if level hero_cards villain_cards fb then 1 else 0);
            dealt := dealt st ++ [fb];
            rng := (draw (rng st) left (5 - length board)).2 |}.
Proof.
  intros Hvalid Hboard Hsize left.
  apply Forall_app in Hvalid as [Hhero Hvalid].
  apply Forall_app in Hvalid as [Hvillain Hb].
  pose proof (deck_left_length hero_cards villain_cards board) as Hleft.
  rewrite !length_app in Hleft. fold left in Hleft.
  set (k := (5 - length board)%nat).
  assert (Hk : (k <= length left)%nat) by (unfold k; lia).
  assert (Hneed : Z.to_nat (5 - Z.of_nat (length board)) = k) by (unfold k; lia).
  set (s := (draw (rng st) left k).1).
  assert (Hlen : length s = k) by (by apply draw_length).
  assert (Hdrawn : drawn_without_replacement s left)
    by (by apply draw_without_replacement).
  assert (Hs : Forall valid_card s).
  { apply Forall_forall. intros c Hc.
    apply (drawn_elem _ _ _ Hdrawn), deck_left_elem in Hc. by destruct Hc. }
  exists (board ++ s). split; [|split; [done|]].
  { exists s. split; [done|]. split; [unfold k in Hlen; lia | done]. }
  unfold iteration. rewrite random_sample_ok by lia. rewrite Hneed.
  destruct (draw (rng st) left k) as [s' g'] eqn:Hdraw. cbn in s. cbn.
  assert (Hfb : board ++ s <> []).
  { intros Hnil. apply (f_equal length) in Hnil. rewrite length_app in Hnil.
    cbn in Hnil. unfold k in Hlen. lia. }
  destruct (hand_strength_highest (hero_cards ++ board ++ s)) as (h & Hh & _).
  { intros [_ ?]%app_eq_nil. done. }
  { by rewrite !Forall_app. }
  destruct (hand_strength_highest (villain_cards ++ board ++ s)) as (v & Hv & _).
  { intros [_ ?]%app_eq_nil. done. }
  { by rewrite !Forall_app. }
  unfold beats, level. subst s. rewrite Hh, Hv. cbn.
  destruct (h >? v) eqn:Hgt.
  - assert ((h =? v) = false) as -> by lia. do 2 f_equal; lia.
  - destruct (h =? v); do 2 f_equal; lia.
Qed.

Lemma count_cons {A} (p : A -> bool) (a : A) (l : list A) :
  count p (a :: l) = (if p a then 1 else 0) + count p l.
Proof. unfold count. cbn. destruct (p a); cbn; lia. Qed.

(** The loop: [n] passes append [n] completed boards to the ghost log and
    add to each counter the number of those boards it counts. *)
Lemma loop_tally hero_cards villain_cards board n st :
  Forall valid_card (hero_cards ++ villain_cards ++ board) ->
  (length board <= 5)%nat ->
  (length hero_cards + length villain_cards <= 47)%nat ->
  exists new g',
    length new = n /\
    Forall (completes hero_cards villain_cards board) new /\
    repeat_loop n
      (iteration hero_cards villain_cards board
         (deck_left hero_cards villain_cards board)) st =
      Ok {| hero_wins := hero_wins st + count (beats hero_cards villain_cards) new;
            ties := ties st + count (level hero_cards villain_cards) new;
            dealt := dealt st ++ new;
            rng := g' |}.
Proof.
  intros Hvalid Hboard Hsize. revert st.
  induction n as [|n IH]; intros st.
  - exists [], (rng st). split; [done|]. split; [constructor|].
    cbn. destruct st; cbn. unfold count; cbn. rewrite app_nil_r.
    do 2 f_equal; lia.
  - destruct (iteration_step hero_cards villain_cards board st Hvalid Hboard Hsize)
      as (fb & Hfb & _ & Hstep).
    cbn [repeat_loop]. rewrite Hstep. cbn [mbind result_bind].
    match goal with |- context [repeat_loop n _ ?s1] =>
      destruct (IH s1) as (new & g' & Hlen & Hall & Hloop) end.
    exists (fb :: new), g'. split; [cbn; lia|]. split; [by constructor|].
    rewrite Hloop. cbn [hero_wins ties dealt rng].
    rewrite !count_cons, <- app_assoc. cbn [app]. do 2 f_equal; lia.
Qed.

Lemma final_ratio_bounds w t n :
  0 <= w -> 0 <= t -> w + t <= n -> 1 <= n ->
  exists q, final_ratio w t n = Ok q /\
            q = ((inject_Z w + inject_Z t * (1 # 2)) / inject_Z n)%Q /\
            (0 <= q <= 1)%Q.
Proof.
  intros Hw Ht Hsum Hn. unfold final_ratio.
  destruct (n =? 0) eqn:Hz; [lia|]. eexists. split; [done|]. split; [done|].
  assert (Hn' : (0 < inject_Z n)%Q) by (change 0%Q with (inject_Z 0); rewrite <- Zlt_Qlt; lia).
  rewrite Zle_Qle in Hw, Ht, Hsum. rewrite inject_Z_plus in Hsum.
  change (inject_Z 0) with 0%Q in *.
  split.
  - apply Qle_shift_div_l; [done|]. lra.
  - apply Qle_shift_div_r; [done|]. lra.
Qed.

(** C1. With valid cards, pairwise disjoint holdings and board, at most five
    board cards, holdings small enough to leave a completion in the deck (47
    hole cards at most, so any hold'em holdings) and at least one iteration,
    [monte_carlo_equity] returns [(wins + ties * 0.5) / iterations]: the
    counters are tallied over exactly [iterations] completed boards, each the
    board followed by [5 - len(board)] cards drawn without replacement from
    the deck minus the dead cards (the cards of the deck that are in neither
    holding nor on the board, each once); [wins] counts the boards where the
    hero's strength is strictly greater, [ties] those where the strengths are
    equal; and the value lies between 0 and 1. *)
Theorem monte_carlo_equity_tallies hero_cards villain_cards board n seed g :
  Forall valid_card (hero_cards ++ villain_cards ++ board) ->
  hero_cards ## villain_cards ->
  hero_cards ## board ->
  villain_cards ## board ->
  (length board <= 5)%nat ->
  (length hero_cards + length villain_cards <= 47)%nat ->
  1 <= n ->
  exists st q,
    simulate hero_cards villain_cards board n seed g = Ok st /\
    monte_carlo_equity hero_cards villain_cards board n seed g = Ok (q, rng st) /\
    q = ((inject_Z (hero_wins st) + inject_Z (ties st) * (1 # 2)) / inject_Z n)%Q /\
    Z.of_nat (length (dealt st)) = n /\
    Forall (completes hero_cards villain_cards board) (dealt st) /\
    (forall c, c ∈ deck_left hero_cards villain_cards board <->
               c ∈ deck /\ c ∉ hero_cards ++ villain_cards ++ board) /\
    NoDup (deck_left hero_cards villain_cards board) /\
    hero_wins st = count (beats hero_cards villain_cards) (dealt st) /\
    ties st = count (level hero_cards villain_cards) (dealt st) /\
    (0 <= q <= 1)%Q.
Proof.
  intros Hvalid _ _ _ Hboard Hsize Hn.
  unfold monte_carlo_equity, simulate.
  match goal with |- context [repeat_loop _ _ ?s0] =>
    destruct (loop_tally hero_cards villain_cards board (Z.to_nat n) s0
                Hvalid Hboard Hsize) as (new & g' & Hlen & Hall & Hloop) end.
  rewrite Hloop. cbn [hero_wins ties dealt rng app] in *.
  rewrite !Z.add_0_l.
  pose proof (count_nonneg (beats hero_cards villain_cards) new) as Hw.
  pose proof (count_nonneg (level hero_cards villain_cards) new) as Ht.
  pose proof (count_exclusive (beats hero_cards villain_cards)
                (level hero_cards villain_cards) new
                (beats_not_level hero_cards villain_cards)) as Hsum.
  destruct (final_ratio_bounds _ _ n Hw Ht) as (q & Hq & Hval & Hrange); [lia..|].
  eexists _, q. split; [done|]. cbn [mbind result_bind hero_wins ties dealt rng].
  rewrite Hq. cbn [mbind result_bind]. split; [done|]. split; [done|].
  split; [lia|].
  split; [done|]. split; [apply deck_left_elem|].
  split; [apply deck_left_NoDup | done].
Qed.

End equity_facts.

(** ** Complete boards *)

Section complete_board.

Context {G : Generator} {HG : GeneratorLaws G}.

Lemma iteration_complete hero_cards villain_cards board left st h v :
  length board = 5%nat ->
  hand_strength (hero_cards ++ board) = Ok h ->
  hand_strength (villain_cards ++ board) = Ok v ->
  iteration hero_cards villain_cards board left st =
    Ok {| hero_wins := hero_wins st + (if h >? v then 1 else 0);
          ties := ties st + (if h >? v then 0 else if h =? v then 1 else 0);
          dealt := dealt st ++ [board];
          rng := rng st |}.
Proof.
  intros Hlen Hh Hv. unfold iteration.
  rewrite random_sample_ok by lia. rewrite Hlen. cbn [Z.of_nat Z.sub Z.to_nat].
  change (Z.to_nat (5 - 5)) with 0%nat. rewrite draw_nothing.
  cbn [mbind result_bind]. rewrite app_nil_r, Hh, Hv. cbn [mbind result_bind].
  destruct (h >? v); [do 2 f_equal; lia|].
  destruct (h =? v); do 2 f_equal; lia.
Qed.

Lemma loop_complete hero_cards villain_cards board left n st h v :
  length board = 5%nat ->
  hand_strength (hero_cards ++ board) = Ok h ->
  hand_strength (villain_cards ++ board) = Ok v ->
  repeat_loop n (iteration hero_cards villain_cards board left) st =
    Ok {| hero_wins := hero_wins st + (if h >? v then Z.of_nat n else 0);
          ties := ties st
                  + (if h >? v then 0 else if h =? v then Z.of_nat n else 0);
          dealt := dealt st ++ replicate n board;
          rng := rng st |}.
Proof.
  intros Hlen Hh Hv. revert st. induction n as [|n IH]; intros st.
  - cbn. destruct st; cbn. rewrite app_nil_r.
    destruct (h >? v), (h =? v); do 2 f_equal; lia.
  - cbn [repeat_loop].
    rewrite (iteration_complete _ _ _ _ _ h v) by done.
    cbn [mbind result_bind]. rewrite IH. cbn [hero_wins ties dealt rng].
    rewrite <- app_assoc. cbn [app replicate].
    destruct (h >? v), (h =? v); do 2 f_equal; lia.
Qed.

Lemma complete_board_strengths hero_cards villain_cards board :
  Forall valid_card (hero_cards ++ villain_cards ++ board) ->
  length board = 5%nat ->
  exists h v, hand_strength (hero_cards ++ board) = Ok h /\
              hand_strength (villain_cards ++ board) = Ok v.
Proof.
  intros Hvalid Hlen.
  apply Forall_app in Hvalid as [Hhero Hvalid].
  apply Forall_app in Hvalid as [Hvillain Hb].
  assert (Hne : board <> []) by (intros ->; done).
  destruct (hand_strength_highest (hero_cards ++ board)) as (h & Hh & _).
  { intros [_ ?]%app_eq_nil. done. }
  { by rewrite Forall_app. }
  destruct (hand_strength_highest (villain_cards ++ board)) as (v & Hv & _).
  { intros [_ ?]%app_eq_nil. done. }
  { by rewrite Forall_app. }
  by exists h, v.
Qed.

(** On a complete board the whole run is determined by one comparison. *)
Lemma simulate_complete hero_cards villain_cards board n seed g h v :
  length board = 5%nat ->
  hand_strength (hero_cards ++ board) = Ok h ->
  hand_strength (villain_cards ++ board) = Ok v ->
  simulate hero_cards villain_cards board n seed g =
    Ok {| hero_wins := if h >? v then Z.of_nat (Z.to_nat n) else 0;
          ties := if h >? v then 0 else if h =? v then Z.of_nat (Z.to_nat n) else 0;
          dealt := replicate (Z.to_nat n) board;
          rng := reseed seed g |}.
Proof.
  intros Hlen Hh Hv. unfold simulate.
  by rewrite (loop_complete _ _ _ _ _ _ h v).
Qed.

Lemma ratio_all n : 1 <= n -> ((inject_Z n + inject_Z 0 * (1 # 2)) / inject_Z n == 1)%Q.
Proof.
  intros Hn. assert (~ inject_Z n == 0)%Q.
  { change 0%Q with (inject_Z 0). rewrite inject_Z_injective. lia. }
  change (inject_Z 0) with 0%Q. by field.
Qed.

Lemma ratio_half n : 1 <= n -> ((inject_Z 0 + inject_Z n * (1 # 2)) / inject_Z n == 1 # 2)%Q.
Proof.
  intros Hn. assert (~ inject_Z n == 0)%Q.
  { change 0%Q with (inject_Z 0). rewrite inject_Z_injective. lia. }
  change (inject_Z 0) with 0%Q. by field.
Qed.

Lemma ratio_none n : 1 <= n -> ((inject_Z 0 + inject_Z 0 * (1 # 2)) / inject_Z n == 0)%Q.
Proof.
  intros Hn. assert (~ inject_Z n == 0)%Q.
  { change 0%Q with (inject_Z 0). rewrite inject_Z_injective. lia. }
  change (inject_Z 0) with 0%Q. by field.
Qed.

Lemma equity_complete hero_cards villain_cards board n seed g h v :
  length board = 5%nat -> 1 <= n ->
  hand_strength (hero_cards ++ board) = Ok h ->
  hand_strength (villain_cards ++ board) = Ok v ->
  exists q,
    monte_carlo_equity hero_cards villain_cards board n seed g
      = Ok (q, reseed seed g) /\
    (q == if h >? v then 1 else if h =? v then 1 # 2 else 0)%Q.
Proof.
  intros Hlen Hn Hh Hv. unfold monte_carlo_equity.
  rewrite (simulate_complete _ _ _ _ _ _ h v) by done.
  cbn [mbind result_bind hero_wins ties rng]. unfold final_ratio.
  destruct (n =? 0) eqn:Hz; [lia|]. cbn [mbind result_bind].
  eexists. split; [done|]. rewrite Z2Nat.id by lia.
  destruct (h >? v); [by apply ratio_all|].
  destruct (h =? v); [by apply ratio_half | by apply ratio_none].
Qed.

End complete_board.

Section equity_claims.

Context {G : Generator} {HG : GeneratorLaws G}.

(** The run returns whether or not the card sets overlap: only validity of
    the tokens, the board length, the number of hole cards and the iteration
    count matter. *)
Lemma equity_returns hero_cards villain_cards board n seed g :
  Forall valid_card (hero_cards ++ villain_cards ++ board) ->
  (length board <= 5)%nat ->
  (length hero_cards + length villain_cards <= 47)%nat ->
  1 <= n ->
  exists q g',
    monte_carlo_equity hero_cards villain_cards board n seed g = Ok (q, g') /\
    (0 <= q <= 1)%Q.
Proof.
  intros Hvalid Hboard Hsize Hn. unfold monte_carlo_equity, simulate.
  match goal with |- context [repeat_loop _ _ ?s0] =>
    destruct (loop_tally hero_cards villain_cards board (Z.to_nat n) s0
                Hvalid Hboard Hsize) as (new & g' & Hlen & _ & ->) end.
  cbn [mbind result_bind hero_wins ties rng]. rewrite !Z.add_0_l.
  destruct (final_ratio_bounds
              (count (beats hero_cards villain_cards) new)
              (count (level hero_cards villain_cards) new) n)
    as (q & -> & _ & Hrange); try apply count_nonneg; [|done|].
  - pose proof (count_exclusive _ _ new (beats_not_level hero_cards villain_cards)).
    lia.
  - by exists q, g'.
Qed.

(** C4 (as amended). On a complete five-card board of valid cards, disjoint
    from both holdings, and with at least one iteration, nothing is drawn:
    every one of the [n] passes of the loop evaluates the comparator on the
    board itself and the generator is left as the seeding step left it.  The
    returned value is exactly 0, 1/2 or 1 and equals the direct comparison
    [showdown] of the two holdings on the board: 1 when the hero's strength
    is strictly greater, 1/2 when the strengths are equal, 0 otherwise. *)
Theorem complete_board_equity hero_cards villain_cards board n seed g :
  Forall valid_card (hero_cards ++ villain_cards ++ board) ->
  hero_cards ## board ->
  villain_cards ## board ->
  length board = 5%nat ->
  1 <= n ->
  exists st q sq,
    simulate hero_cards villain_cards board n seed g = Ok st /\
    dealt st = replicate (Z.to_nat n) board /\
    rng st = reseed seed g /\
    monte_carlo_equity hero_cards villain_cards board n seed g
      = Ok (q, reseed seed g) /\
    showdown hero_cards villain_cards board = Ok sq /\
    (q == sq)%Q /\
    (sq = 0 \/ sq = 1 # 2 \/ sq = 1)%Q.
Proof.
  intros Hvalid _ _ Hlen Hn.
  destruct (complete_board_strengths _ _ _ Hvalid Hlen) as (h & v & Hh & Hv).
  destruct (equity_complete hero_cards villain_cards board n seed g h v)
    as (q & Hq & Hval); [done..|].
  eexists _, q, _. split; [by apply (simulate_complete _ _ _ _ _ _ h v)|].
  cbn [dealt rng]. do 3 (split; [done|]).
  unfold showdown. rewrite Hh, Hv. cbn [mbind result_bind].
  split; [done|]. split; [done|].
  destruct (h >? v); [by right; right|].
  destruct (h =? v); [by right; left | by left].
Qed.

(** C9 (as amended). On a complete five-card board of valid cards, disjoint
    from both holdings, and for every iteration count of at least one and
    every seed, swapping the two holdings complements the result exactly,
    whatever state the generator is in at either call. *)
Theorem swap_complements_equity hero_cards villain_cards board n seed g g' :
  Forall valid_card (hero_cards ++ villain_cards ++ board) ->
  hero_cards ## board ->
  villain_cards ## board ->
  length board = 5%nat ->
  1 <= n ->
  exists a b,
    monte_carlo_equity hero_cards villain_cards board n seed g
      = Ok (a, reseed seed g) /\
    monte_carlo_equity villain_cards hero_cards board n seed g'
      = Ok (b, reseed seed g') /\
    (a == 1 - b)%Q.
Proof.
  intros Hvalid _ _ Hlen Hn.
  destruct (complete_board_strengths _ _ _ Hvalid Hlen) as (h & v & Hh & Hv).
  destruct (equity_complete hero_cards villain_cards board n seed g h v)
    as (a & Ha & Hva); [done..|].
  destruct (equity_complete villain_cards hero_cards board n seed g' v h)
    as (b & Hb & Hvb); [done..|].
  exists a, b. do 2 (split; [done|]). rewrite Hva, Hvb.
  destruct (h >? v) eqn:E1, (v >? h) eqn:E2, (h =? v) eqn:E3, (v =? h) eqn:E4;
    try lia; reflexivity.
Qed.

End equity_claims.

Section equity_failures.

Context {G : Generator}.

(** C10. With [mc_iters = 0] the loop body never runs (the counters stay at
    zero and no board is compared) and the final division raises
    [ZeroDivisionError], for every holding, board, seed, generator and
    generator state; with at least one iteration, a generator that meets
    the sampling contract, valid cards, a board of at most five cards and at
    most 47 hole cards the function does return. *)
Theorem zero_iterations_never_return hero_cards villain_cards board seed g :
  simulate hero_cards villain_cards board 0 seed g
    = Ok {| hero_wins := 0; ties := 0; dealt := []; rng := reseed seed g |} /\
  monte_carlo_equity hero_cards villain_cards board 0 seed g
    = Raise ZeroDivisionError /\
  (forall n,
     1 <= n ->
     GeneratorLaws G ->
     Forall valid_card (hero_cards ++ villain_cards ++ board) ->
     (length board <= 5)%nat ->
     (length hero_cards + length villain_cards <= 47)%nat ->
     returns (monte_carlo_equity hero_cards villain_cards board n seed g)).
Proof.
  split; [done|]. split; [done|].
  intros n Hn HG Hvalid Hboard Hsize.
  destruct (equity_returns hero_cards villain_cards board n seed g)
    as (q & g' & Hq & _); [done..|].
  by exists (q, g').
Qed.

Lemma iteration_long_board hero_cards villain_cards board left st :
  (5 < length board)%nat ->
  iteration hero_cards villain_cards board left st = Raise ValueError.
Proof.
  intros Hlong. unfold iteration. rewrite random_sample_bad by lia. done.
Qed.

(** C8 (as amended). A board of more than five cards makes the equity
    computation fail for every iteration count that is not negative: the
    sampler raises [ValueError] in the first pass of the loop, and with no
    pass at all the division raises [ZeroDivisionError].  Overlap between
    the holdings and the board is not checked: with a generator that meets
    the sampling contract, valid tokens, at most five board cards, at most
    47 hole cards and at least one iteration the computation returns an
    equity between 0 and 1 on overlapping input as on any other. *)
Theorem long_board_fails_overlap_unchecked :
  (forall hero_cards villain_cards board n seed g,
     (5 < length board)%nat ->
     (1 <= n ->
      monte_carlo_equity hero_cards villain_cards board n seed g
        = Raise ValueError) /\
     (n = 0 ->
      monte_carlo_equity hero_cards villain_cards board n seed g
        = Raise ZeroDivisionError)) /\
  (forall hero_cards villain_cards board n seed g,
     GeneratorLaws G ->
     overlapping hero_cards villain_cards board ->
     Forall valid_card (hero_cards ++ villain_cards ++ board) ->
     (length board <= 5)%nat ->
     (length hero_cards + length villain_cards <= 47)%nat ->
     1 <= n ->
     exists q g',
       monte_carlo_equity hero_cards villain_cards board n seed g = Ok (q, g') /\
       (0 <= q <= 1)%Q).
Proof.
  split.
  - intros hero_cards villain_cards board n seed g Hlong. split.
    + intros Hn. unfold monte_carlo_equity, simulate.
      destruct (Z.to_nat n) as [|k] eqn:Hk; [lia|].
      cbn [repeat_loop]. by rewrite iteration_long_board.
    + by intros ->.
  - intros hero_cards villain_cards board n seed g HG _. apply equity_returns.
Qed.

(** With a seed other than zero the call does not depend on the state the
    generator was in. *)
Lemma seeded_equity_deterministic hero_cards villain_cards board n s g1 g2 :
  s <> 0 ->
  monte_carlo_equity hero_cards villain_cards board n (Some s) g1 =
  monte_carlo_equity hero_cards villain_cards board n (Some s) g2.
Proof.
  intros Hs. unfold monte_carlo_equity, simulate, reseed.
  by destruct (s =? 0) eqn:Hz; [lia|].
Qed.

Lemma seed_zero_unseeded hero_cards villain_cards board n g :
  monte_carlo_equity hero_cards villain_cards board n (Some 0) g =
  monte_carlo_equity hero_cards villain_cards board n None g.
Proof. done. Qed.

End equity_failures.

(** ** Qualification of a hand *)

Lemma dict_get_None {V} (d : list (string * V)) k :
  dict_get d k = None <-> k ∉ d.*1.
Proof.
  unfold dict_get. induction d as [|[k' v] d IH]; cbn.
  - split; [intros _; apply not_elem_of_nil | done].
  - rewrite not_elem_of_cons. destruct (String.eqb_spec k' k) as [->|Hne]; cbn.
    + split; [done | intros [? _]; done].
    + rewrite IH. split; [by split | by intros [_ ?]].
Qed.

Lemma first_other_None d h :
  first_other d h = None <-> Forall (fun kv => kv.1 = h) d.
Proof.
  unfold first_other. induction d as [|[k v] d IH]; cbn.
  - split; [constructor | done].
  - rewrite Forall_cons. destruct (String.eqb_spec k h) as [->|Hne]; cbn.
    + rewrite IH. split; [by split | by intros [_ ?]].
    + split; [done | intros [? _]; done].
Qed.

Lemma no_cards_true p : no_cards p = true <-> unknown_cards p.
Proof. unfold no_cards, unknown_cards. by destruct (cards p). Qed.

Lemma qualifies_false hand : qualifies hand = false <-> not_applicable hand.
Proof.
  unfold qualifies, not_applicable, hero_missing, no_opponent.
  rewrite <- dict_get_None, <- first_other_None.
  destruct (dict_get (players hand) (hero hand)) as [hp|] eqn:Hh;
    [|split; [by left | done]].
  destruct (first_other (players hand) (hero hand)) as [vp|] eqn:Hv;
    [|split; [by right; left | done]].
  rewrite negb_false_iff, orb_true_iff, !no_cards_true. split.
  - intros [H|H]; [right; right; left | right; right; right]; by eexists.
  - intros [H|[H|[(p & [= <-] & H)|(p & [= <-] & H)]]]; try done;
      [by left | by right].
Qed.

Section hand_facts.

Context {G : Generator}.

Lemma process_hand_skip hand args g :
  qualifies hand = false -> process_hand hand args g = Ok (None, g).
Proof.
  unfold qualifies, process_hand.
  destruct (dict_get (players hand) (hero hand)); [|done].
  destruct (first_other (players hand) (hero hand)); [|done].
  rewrite negb_false_iff. by intros ->.
Qed.

Lemma process_hand_run hand args g hero_p villain :
  dict_get (players hand) (hero hand) = Some hero_p ->
  first_other (players hand) (hero hand) = Some villain ->
  cards hero_p <> [] -> cards villain <> [] ->
  process_hand hand args g =
    '(eq, g') ← monte_carlo_equity (cards hero_p) (cards villain) (board hand)
                  (mc_iters args) (seed args) g;
    Ok (Some (ev_row hand args eq), g').
Proof.
  intros Hh Hv Hhc Hvc. unfold process_hand. rewrite Hh, Hv.
  unfold no_cards. by destruct (cards hero_p), (cards villain).
Qed.

Lemma qualifies_true hand :
  qualifies hand = true ->
  exists hero_p villain,
    dict_get (players hand) (hero hand) = Some hero_p /\
    first_other (players hand) (hero hand) = Some villain /\
    cards hero_p <> [] /\ cards villain <> [].
Proof.
  unfold qualifies.
  destruct (dict_get (players hand) (hero hand)) as [hp|]; [|done].
  destruct (first_other (players hand) (hero hand)) as [vp|]; [|done].
  rewrite negb_true_iff, orb_false_iff. unfold no_cards. intros [Hh Hv].
  exists hp, vp. do 2 (split; [done|]).
  split; intros Hnil; by rewrite Hnil in *.
Qed.

Lemma collect_rows_app hs1 hs2 args rows g :
  collect_rows (hs1 ++ hs2) args rows g =
    '(rows1, g1) ← collect_rows hs1 args rows g; collect_rows hs2 args rows1 g1.
Proof.
  revert rows g. induction hs1 as [|h hs1 IH]; intros rows g; [done|].
  cbn [app collect_rows].
  destruct (process_hand h args g) as [[[row|] g1]|e]; cbn [mbind result_bind];
    [apply IH | apply IH | done].
Qed.


(** C3. When the hero and the first other player both have hole cards and
    the equity computation returns [eq], [process_hand] returns a row with
    that equity, [eligible_pot = total_pot - (0 if ev_before_rake else rake)],
    [hero_invested = eligible_pot / 2],
    [ev_contrib = equity * eligible_pot - hero_invested], and [hero_net] the
    hero's entry of [results], or 0 when there is none.  With a pot of 100,
    a rake of 5, EV after rake and an equity of 0.6 the row has
    [eligible_pot = 95], [hero_invested = 47.5] and [ev_contrib = 9.5]
    (so too on binary64 numbers: [worked_row_binary64]). *)
Theorem qualifying_hand_row hand args g hero_p villain eq g' :
  dict_get (players hand) (hero hand) = Some hero_p ->
  first_other (players hand) (hero hand) = Some villain ->
  cards hero_p <> [] ->
  cards villain <> [] ->
  monte_carlo_equity (cards hero_p) (cards villain) (board hand)
    (mc_iters args) (seed args) g = Ok (eq, g') ->
  exists row,
    process_hand hand args g = Ok (Some row, g') /\
    equity row = eq /\
    eligible_pot row
      = (total_pot hand - (if ev_before_rake args then 0 else rake hand))%Q /\
    hero_invested row = (eligible_pot row / 2)%Q /\
    ev_contrib row = (equity row * eligible_pot row - hero_invested row)%Q /\
    (forall x, results hand !! hero hand = Some x -> hero_net row = x) /\
    (results hand !! hero hand = None -> hero_net row = 0%Q) /\
    ((total_pot hand == 100)%Q -> (rake hand == 5)%Q ->
     ev_before_rake args = false -> (eq == 6 # 10)%Q ->
     (eligible_pot row == 95)%Q /\
     (hero_invested row == 475 # 10)%Q /\
     (ev_contrib row == 95 # 10)%Q).
Proof.
  intros Hh Hv Hhc Hvc Heq.
  exists (ev_row hand args eq).
  rewrite (process_hand_run hand args g hero_p villain) by done.
  rewrite Heq. cbn [mbind result_bind].
  do 5 (split; [done|]). cbn [hero_net eligible_pot hero_invested ev_contrib ev_row].
  split; [by intros x -> | split; [by intros ->|]].
  intros Hpot Hrake -> Hval. cbn [equity ev_row].
  rewrite Hpot, Hrake, Hval. repeat split; reflexivity.
Qed.

End hand_facts.

Section main_claims.

Context {G : Generator} {HG : GeneratorLaws G}.

Lemma playable_row hand args g :
  qualifies hand = true -> playable hand -> 1 <= mc_iters args ->
  exists row g', process_hand hand args g = Ok (Some row, g').
Proof.
  intros (hp & vp & Hh & Hv & Hhc & Hvc)%qualifies_true
         (hp' & vp' & Hh' & Hv' & Hvalid & Hboard & Hsize) Hn.
  rewrite Hh in Hh'. rewrite Hv in Hv'.
  injection Hh' as <-. injection Hv' as <-.
  destruct (equity_returns (cards hp) (cards vp) (board hand)
              (mc_iters args) (seed args) g) as (q & g' & Hq & _); [done..|].
  exists (ev_row hand args q), g'.
  rewrite (process_hand_run hand args g hp vp) by done. by rewrite Hq.
Qed.

(** The loop over the hands: the rows appended are those of the qualifying
    hands, in the order of the hands. *)
Lemma collect_rows_qualifying hands args :
  Forall (fun h => qualifies h = true -> playable h) hands ->
  1 <= mc_iters args ->
  forall rows g, exists new g',
    collect_rows hands args rows g = Ok (rows ++ new, g') /\
    Forall2 (fun h row => row_of args h row) (List.filter qualifies hands) new.
Proof.
  intros Hall Hn. induction Hall as [|h hs Hh _ IH]; intros rows g.
  - exists [], g. cbn. rewrite app_nil_r. split; [done | constructor].
  - cbn [collect_rows List.filter]. destruct (qualifies h) eqn:Hq.
    + destruct (playable_row h args g Hq (Hh eq_refl) Hn) as (row & g1 & Hrow).
      rewrite Hrow. cbn [mbind result_bind].
      destruct (IH (rows ++ [row]) g1) as (new & g' & Hnew & Hrows).
      exists (row :: new), g'. rewrite Hnew, <- app_assoc. split; [done|].
      constructor; [by exists g, g1 | done].
    + rewrite (process_hand_skip h args g Hq). cbn [mbind result_bind].
      apply IH.
Qed.

(** C6 (as amended). For a sequence of hands whose qualifying hands can be
    played (valid cards, at most five board cards, at most 47 hole cards)
    and an iteration count of at least one, the main returns the rows of
    exactly the qualifying hands, in input order.  When there is at least
    one row it also gives the totals: [net_total] the sum of [hero_net],
    [ev_total] the sum of [ev_contrib], and [diff = ev_total - net_total];
    with no row it gives no totals.  For rows with [hero_net] 10 and -20
    and [ev_contrib] 9.5 and -5 the totals are -10, 4.5 and 14.5 (so too on
    binary64 numbers: [worked_totals_binary64]). *)
Theorem main_rows_and_totals hands args g :
  Forall (fun h => qualifies h = true -> playable h) hands ->
  1 <= mc_iters args ->
  exists rows g',
    main hands args g = Ok (rows, summarize rows, g') /\
    Forall2 (fun h row => row_of args h row) (List.filter qualifies hands) rows /\
    (rows <> [] ->
     exists s, summarize rows = Some s /\
               net_total s = py_sum (hero_net <$> rows) /\
               ev_total s = py_sum (ev_contrib <$> rows) /\
               diff s = (ev_total s - net_total s)%Q) /\
    (rows = [] -> summarize rows = None) /\
    (Forall2 Qeq (hero_net <$> rows) [10; -20]%Q ->
     Forall2 Qeq (ev_contrib <$> rows) [95 # 10; -5]%Q ->
     exists s, summarize rows = Some s /\
               (net_total s == -10)%Q /\
               (ev_total s == 45 # 10)%Q /\
               (diff s == 145 # 10)%Q).
Proof.
  intros Hall Hn.
  destruct (collect_rows_qualifying hands args Hall Hn [] g)
    as (rows & g' & Hrows & Hq).
  exists rows, g'. unfold main. rewrite Hrows. cbn [mbind result_bind app].
  split; [done|]. split; [done|]. split; [|split].
  - intros Hne. destruct rows as [|r rows]; [done|].
    eexists. split; [done|]. done.
  - by intros ->.
  - intros Hnet Hev.
    destruct rows as [|r1 [|r2 [|r3 rows]]]; cbn in Hnet, Hev;
      try (by inversion Hnet as [|? ? ? ? ? Htl]; inversion Htl as [|? ? ? ? ? Htl2];
              inversion Htl2).
    apply Forall2_cons in Hnet as [Hn1 [Hn2 _]%Forall2_cons].
    apply Forall2_cons in Hev as [He1 [He2 _]%Forall2_cons].
    eexists. split; [done|]. cbn [net_total ev_total diff].
    unfold py_sum. cbn [fmap list_fmap fold_left].
    rewrite Hn1, Hn2, He1, He2. repeat split; reflexivity.
Qed.

End main_claims.

(** ** The model at concrete inputs *)

Lemma disjointb_sound l k : disjointb l k = true -> l ## k.
Proof.
  unfold disjointb. rewrite forallb_forall. intros Hall c Hl Hk.
  apply list_elem_of_In, Hall in Hl.
  apply negb_true_iff, bool_decide_eq_false in Hl. done.
Qed.

Lemma valid_cards_check (cs : list card) :
  bool_decide (Forall valid_card cs) = true -> Forall valid_card cs.
Proof. apply bool_decide_eq_true_1. Qed.

Ltac check_cards :=
  first [ apply valid_cards_check; vm_compute; reflexivity
        | apply disjointb_sound; vm_compute; reflexivity ].

(** C7. The seed test of [monte_carlo_equity] is on the truth value of
    [seed], so a supplied seed of 0 is treated as no seed at all: the call
    continues from whatever state the generator is in.  With the concrete
    generator two consecutive calls with the same arguments and seed 0
    return different equities, while a seed other than 0 makes the call
    independent of the generator's state. *)
Theorem seed_zero_not_reproducible :
  (forall (G : Generator) hero_cards villain_cards board n g,
     monte_carlo_equity hero_cards villain_cards board n (Some 0) g =
     monte_carlo_equity hero_cards villain_cards board n None g) /\
  (exists a g1 b g2,
     monte_carlo_equity (G := rot_generator) king_high queen_high [] 1 (Some 0) 5
       = Ok (a, g1) /\
     monte_carlo_equity (G := rot_generator) king_high queen_high [] 1 (Some 0) g1
       = Ok (b, g2) /\
     ~ (a == b)%Q) /\
  (forall (G : Generator) hero_cards villain_cards board n s g1 g2,
     s <> 0 ->
     monte_carlo_equity hero_cards villain_cards board n (Some s) g1 =
     monte_carlo_equity hero_cards villain_cards board n (Some s) g2).
Proof.
  split; [intros; apply seed_zero_unseeded|]. split.
  - eexists _, _, _, _. split; [vm_compute; reflexivity|].
    split; [vm_compute; reflexivity|]. by intros [=].
  - intros. by apply seeded_equity_deterministic.
Qed.

(** *** The worked figures on binary64 numbers *)

(** A pot of 100, a rake of 5, EV after rake and an equity of 0.6: the
    product [0.6 * 95] rounds to 57, and the row is 95, 47.5 and 9.5. *)
Lemma worked_row_binary64 :
  attribute_float 100 5 false 0.6 = (95, 47.5, 9.5)%float.
Proof. vm_compute. reflexivity. Qed.

(** The totals of [hero_net] 10 and -20 and [ev_contrib] 9.5 and -5. *)
Lemma worked_totals_binary64 :
  let net_total := py_sum_float [10; -20]%float in
  let ev_total := py_sum_float [9.5; -5]%float in
  (net_total, ev_total, (ev_total - net_total)%float) = (-10, 4.5, 14.5)%float.
Proof. vm_compute. reflexivity. Qed.

(** *** Counterexamples to the claims as first stated *)

(** C4 as stated says the comparator runs once on a complete board; with
    three iterations the loop compares the holdings on the board three
    times. *)
Lemma complete_board_compared_each_pass :
  exists st,
    simulate (G := rot_generator) ace_king queens river_board 3 None 0 = Ok st /\
    dealt st = [river_board; river_board; river_board] /\
    length (dealt st) <> 1%nat.
Proof. eexists. split; [vm_compute; reflexivity|]. split; [done|]. cbn. lia. Qed.

(** C6 as stated gives totals for every sequence of hands; for the empty
    sequence, and for one without a qualifying hand, [main] returns before
    the totals are computed. *)
Lemma no_rows_no_totals :
  main (G := rot_generator) [] run_args 0 = Ok ([], None, 0) /\
  main (G := rot_generator) [hand_mucked] run_args 0 = Ok ([], None, 0).
Proof. split; vm_compute; reflexivity. Qed.

(** C8 as stated says overlapping card sets are rejected; with the ace of
    hearts in both holdings the computation returns an equity. *)
Lemma shared_card_still_returns :
  overlapping ["Ah"; "Kd"] ["Ah"; "Qc"] [] /\
  exists q g',
    monte_carlo_equity (G := rot_generator) ["Ah"; "Kd"] ["Ah"; "Qc"] []
      3 (Some 7) 0 = Ok (q, g') /\
    (q == 1 # 2)%Q.
Proof.
  split.
  - exists "Ah". left. split; by left.
  - eexists _, _. split; [vm_compute; reflexivity | reflexivity].
Qed.

(** C9 as stated holds for every iteration count; with a count of 0 neither
    call returns, and with a count of -1 both calls return 0, which is not
    its own complement. *)
Lemma swap_complement_needs_an_iteration :
  monte_carlo_equity (G := rot_generator) ace_king queens river_board 0 (Some 1) 0
    = Raise ZeroDivisionError /\
  monte_carlo_equity (G := rot_generator) queens ace_king river_board 0 (Some 1) 0
    = Raise ZeroDivisionError /\
  exists a b g1 g2,
    monte_carlo_equity (G := rot_generator) ace_king queens river_board (-1) (Some 1) 0
      = Ok (a, g1) /\
    monte_carlo_equity (G := rot_generator) queens ace_king river_board (-1) (Some 1) 0
      = Ok (b, g2) /\
    ~ (a == 1 - b)%Q.
Proof.
  split; [vm_compute; reflexivity|]. split; [vm_compute; reflexivity|].
  eexists _, _, _, _. split; [vm_compute; reflexivity|].
  split; [vm_compute; reflexivity|]. by intros [=].
Qed.

(** *** The theorems at concrete inputs *)

Lemma monte_carlo_equity_tallies_witness :
  exists st q,
    monte_carlo_equity (G := rot_generator) king_high queen_high [] 5 (Some 74) 0
      = Ok (q, rng st) /\
    Z.of_nat (length (dealt st)) = 5 /\
    Forall (completes king_high queen_high []) (dealt st) /\
    (0 <= q <= 1)%Q.
Proof.
  destruct (monte_carlo_equity_tallies (G := rot_generator)
              king_high queen_high [] 5 (Some 74) 0)
    as (st & q & _ & Hq & _ & Hlen & Hall & _ & _ & _ & _ & Hrange);
    [check_cards | check_cards | check_cards | check_cards
    | cbn; lia | cbn; lia | lia |].
  exists st, q. exact (conj Hq (conj Hlen (conj Hall Hrange))).
Defined.

Lemma hand_strength_is_highest_rank_witness :
  exists r,
    hand_strength (ace_king ++ river_board) = Ok r /\
    highest_rank (ace_king ++ river_board) r /\
    hand_strength (river_board ++ ace_king) = Ok r.
Proof.
  destruct (hand_strength_is_highest_rank (ace_king ++ river_board))
    as (r & Hr & _ & Hhigh & _ & _ & Hperm & _); [done | check_cards |].
  exists r. do 2 (split; [done|]). apply Hperm, Permutation_app_comm.
Defined.

Lemma qualifying_hand_row_witness :
  exists row,
    process_hand (G := rot_generator) hand_one run_args 0 = Ok (Some row, 961) /\
    (equity row == 6 # 10)%Q /\
    (eligible_pot row == 95)%Q /\
    (hero_invested row == 475 # 10)%Q /\
    (ev_contrib row == 95 # 10)%Q /\
    hero_net row = 10%Q.
Proof.
  edestruct (qualifying_hand_row (G := rot_generator) hand_one run_args 0)
    as (row & Hrow & Heq & _ & _ & _ & Hnet & _ & Hex);
    [reflexivity | reflexivity | done | done | vm_compute; reflexivity |].
  exists row. split; [exact Hrow|]. split; [by rewrite Heq|].
  destruct Hex as (He & Hi & Hc); [reflexivity..|].
  do 3 (split; [done|]). by apply Hnet.
Defined.

Lemma complete_board_equity_witness :
  exists q g',
    monte_carlo_equity (G := rot_generator) ace_king queens river_board 7 None 0
      = Ok (q, g') /\
    (q == 1)%Q.
Proof.
  destruct (complete_board_equity (G := rot_generator)
              ace_king queens river_board 7 None 0)
    as (st & q & sq & _ & _ & _ & Hq & Hsq & Hval & _);
    [check_cards | check_cards | check_cards | done | lia |].
  exists q, 0. split; [exact Hq|].
  injection Hsq as <-. exact Hval.
Defined.


Lemma playable_hand_one : playable hand_one.
Proof.
  eexists _, _. split; [reflexivity|]. split; [reflexivity|].
  split; [check_cards|]. cbn. lia.
Qed.

Lemma playable_hand_two : playable hand_two.
Proof.
  eexists _, _. split; [reflexivity|]. split; [reflexivity|].
  split; [check_cards|]. cbn. lia.
Qed.

Lemma main_rows_and_totals_witness :
  exists rows s g',
    main (G := rot_generator) [hand_one; hand_mucked; hand_two] run_args 0
      = Ok (rows, Some s, g') /\
    row_hand_id <$> rows = ["1001"; "1002"] /\
    (net_total s == -10)%Q /\
    (ev_total s == 45 # 10)%Q /\
    (diff s == 145 # 10)%Q.
Proof.
  destruct (main_rows_and_totals (G := rot_generator)
              [hand_one; hand_mucked; hand_two] run_args 0)
    as (rows & g' & Hsession & _ & _ & _ & Hexample).
  - repeat constructor; intros Hq;
      [apply playable_hand_one | discriminate Hq | apply playable_hand_two].
  - cbn. lia.
  - assert (Hrun : main (G := rot_generator)
                     [hand_one; hand_mucked; hand_two] run_args 0
                   = Ok (example_rows, summarize example_rows, 74))
      by (vm_compute; reflexivity).
    rewrite Hrun in Hsession.
    assert (rows = example_rows) as -> by congruence.
    destruct Hexample as (s & Hs & Hn & He & Hd);
      [repeat constructor | repeat constructor |].
    exists example_rows, s, 74. rewrite <- Hs. by repeat split.
Defined.

Lemma long_board_fails_overlap_unchecked_witness :
  monte_carlo_equity (G := rot_generator) ace_king queens (river_board ++ ["Ts"])
    2 None 0 = Raise ValueError /\
  exists q g',
    monte_carlo_equity (G := rot_generator) ["Ah"; "Kd"] ["Ah"; "Qc"] []
      3 (Some 7) 0 = Ok (q, g') /\
    (0 <= q <= 1)%Q.
Proof.
  destruct (long_board_fails_overlap_unchecked (G := rot_generator))
    as [Hlong Hoverlap].
  split.
  - apply (Hlong ace_king queens (river_board ++ ["Ts"]) 2 None 0); [cbn|]; lia.
  - apply (Hoverlap ["Ah"; "Kd"] ["Ah"; "Qc"] [] 3 (Some 7) 0).
    + apply rot_generator_laws.
    + exists "Ah". left. split; by left.
    + check_cards.
    + cbn. lia.
    + cbn. lia.
    + lia.
Defined.

Lemma swap_complements_equity_witness :
  exists a b,
    monte_carlo_equity (G := rot_generator) ace_king queens river_board 4 (Some 3) 0
      = Ok (a, 3) /\
    monte_carlo_equity (G := rot_generator) queens ace_king river_board 4 (Some 3) 9
      = Ok (b, 3) /\
    (a == 1 - b)%Q.
Proof.
  exact (swap_complements_equity (G := rot_generator)
           ace_king queens river_board 4 (Some 3) 0 9
           ltac:(check_cards) ltac:(check_cards) ltac:(check_cards)
           eq_refl ltac:(lia)).
Defined.

Lemma zero_iterations_never_return_witness :
  monte_carlo_equity (G := rot_generator) king_high queen_high [] 0 (Some 74) 0
    = Raise ZeroDivisionError /\
  returns (monte_carlo_equity (G := rot_generator) king_high queen_high []
             1 (Some 74) 0).
Proof.
  destruct (zero_iterations_never_return (G := rot_generator)
              king_high queen_high [] (Some 74) 0) as (_ & Hzero & Hpos).
  split; [exact Hzero|].
  apply Hpos; [lia | apply rot_generator_laws | check_cards | cbn; lia | cbn; lia].
Defined.

(** * Further properties of the code *)

(** ** The deck and the comparator at their edges *)

(** X1. [deck] has 52 tokens, no token twice, and they are exactly the
    two-character strings made of a character of [RANKS] followed by a
    character of [SUITS]. *)
Theorem deck_is_ranks_times_suits :
  length deck = 52%nat /\
  NoDup deck /\
  (forall c, c ∈ deck <->
     exists r s, r ∈ chars RANKS /\ s ∈ chars SUITS /\
                 c = String r (String s EmptyString)).
Proof.
  split; [reflexivity|]. split; [exact deck_NoDup|].
  intros c. unfold deck. rewrite list_elem_of_bind. split.
  - intros (r & Hc & Hr). apply list_elem_of_bind in Hc as (s & Hc & Hs).
    apply list_elem_of_singleton in Hc. by exists r, s.
  - intros (r & s & Hr & Hs & ->). exists r. split; [|done].
    apply list_elem_of_bind. exists s. split; [|done].
    by apply list_elem_of_singleton.
Qed.

Lemma find_char_returns ch l i :
  returns (find_char ch l i) <-> ch ∈ l.
Proof.
  revert i. induction l as [|a l IH]; intros i; cbn.
  - split; [by intros [? ?] | by intros ?%elem_of_nil].
  - destruct (Ascii.eqb_spec a ch) as [->|Hne].
    + split; [intros _; by left | intros _; by eexists].
    + rewrite IH, elem_of_cons. split; [by right | by intros [?|?]].
Qed.

Lemma find_char_raises ch l i e :
  find_char ch l i = Raise e -> e = ValueError.
Proof.
  revert i. induction l as [|a l IH]; intros i; cbn; [congruence|].
  destruct (Ascii.eqb a ch); [done | apply IH].
Qed.

Lemma has_rank_iff c :
  has_rank c <-> exists ch rest, c = String ch rest /\ ch ∈ chars RANKS.
Proof.
  unfold has_rank, rank_index, str_index.
  destruct c as [|ch rest]; cbn [str_head mbind result_bind].
  - split; [by intros [? ?] | by intros (? & ? & ? & _)].
  - rewrite find_char_returns. split; [by exists ch, rest|].
    by intros (? & ? & [= <- <-] & ?).
Qed.

Lemma comprehension_returns {A B} (f : A -> result B) (l : list A) :
  returns (comprehension f l) <-> Forall (fun a => returns (f a)) l.
Proof.
  split.
  - induction l as [|a l IH]; cbn; [constructor|].
    destruct (f a) as [b|e] eqn:Hb; cbn; [|by intros [? ?]].
    destruct (comprehension f l) as [bs|e]; cbn; [|by intros [? ?]].
    intros _. constructor; [by exists b | apply IH; by eexists].
  - intros H. destruct (comprehension_ok f l H) as (bs & -> & _). by eexists.
Qed.

(** X2. [hand_strength] returns exactly on the non-empty lists whose tokens
    all start with a character of [RANKS]; anything after the first
    character of a token, its suit included, is never looked at. *)
Theorem hand_strength_returns_iff (cs : list card) :
  (returns (hand_strength cs) <-> cs <> [] /\ Forall has_rank cs) /\
  (forall c, has_rank c <->
     exists ch rest, c = String ch rest /\ ch ∈ chars RANKS).
Proof.
  split; [|apply has_rank_iff]. unfold hand_strength. split.
  - intros [r Hr].
    destruct (comprehension rank_index cs) as [rs|e] eqn:Hrs; [|done].
    split.
    + intros ->. cbn in Hrs. injection Hrs as <-. done.
    + apply comprehension_returns. rewrite Hrs. by eexists.
  - intros [Hne Hall].
    destruct (comprehension_ok rank_index cs Hall) as (rs & -> & Hrs).
    cbn. destruct rs as [|x rs]; [|by eexists].
    apply Forall2_nil_inv_r in Hrs. done.
Qed.

Lemma hand_strength_returns_iff_witness :
  returns (hand_strength ["A"; "Kx"; "2 of hearts"]).
Proof.
  apply (proj1 (hand_strength_returns_iff ["A"; "Kx"; "2 of hearts"])).
  split; [done|]. repeat constructor; by eexists.
Defined.

Lemma comprehension_app {A B} (f : A -> result B) (l k : list A) :
  comprehension f (l ++ k) =
    bs ← comprehension f l; cs ← comprehension f k; Ok (bs ++ cs).
Proof.
  induction l as [|a l IH]; cbn.
  - by destruct (comprehension f k).
  - destruct (f a) as [b|e]; cbn; [|done]. rewrite IH.
    destruct (comprehension f l) as [bs|e]; cbn; [|done].
    by destruct (comprehension f k).
Qed.

Lemma rank_index_raises c e :
  rank_index c = Raise e ->
  (c = EmptyString -> e = IndexError) /\ (c <> EmptyString -> e = ValueError).
Proof.
  unfold rank_index, str_index.
  destruct c as [|ch rest]; cbn [str_head mbind result_bind].
  - intros [= <-]. by split.
  - intros He%find_char_raises. by split.
Qed.

(** X3. [hand_strength] raises [ValueError] on the empty list.  On a list
    with a token that does not start with a rank character it raises what
    the first such token raises: [IndexError] when that token is the empty
    string, [ValueError] otherwise; the tokens after it are not looked at. *)
Theorem hand_strength_first_bad_token (pre rest : list card) (c : card) (e : exn) :
  Forall has_rank pre ->
  rank_index c = Raise e ->
  hand_strength [] = Raise ValueError /\
  hand_strength (pre ++ c :: rest) = Raise e /\
  (c = EmptyString -> e = IndexError) /\
  (c <> EmptyString -> e = ValueError).
Proof.
  intros Hpre Hc. split; [done|]. split; [|by apply rank_index_raises].
  unfold hand_strength. rewrite comprehension_app.
  destruct (comprehension_ok rank_index pre Hpre) as (rs & -> & _).
  cbn. by rewrite Hc.
Qed.

Lemma hand_strength_first_bad_token_witness :
  hand_strength ["Ah"; ""; "Zz"] = Raise IndexError /\
  hand_strength ["Ah"; "1s"; ""] = Raise ValueError.
Proof.
  split.
  - apply (hand_strength_first_bad_token ["Ah"] ["Zz"] "" IndexError);
      [repeat constructor; by eexists | reflexivity].
  - apply (hand_strength_first_bad_token ["Ah"] [""] "1s" ValueError);
      [repeat constructor; by eexists | reflexivity].
Defined.

Lemma fold_max_max (l : list Z) (a b : Z) :
  fold_left Z.max l (Z.max a b) = Z.max a (fold_left Z.max l b).
Proof.
  revert b. induction l as [|x l IH]; intros b; cbn; [done|].
  by rewrite <- Z.max_assoc, IH.
Qed.

Lemma hand_strength_inv cs r :
  hand_strength cs = Ok r ->
  exists x rs, comprehension rank_index cs = Ok (x :: rs) /\
               r = fold_left Z.max rs x.
Proof.
  unfold hand_strength.
  destruct (comprehension rank_index cs) as [[|x rs]|e]; cbn; [done| |done].
  intros [= <-]. by exists x, rs.
Qed.

(** X4. The strength of two lists put together is the larger of their
    strengths: cards added to a holding never lower its strength, and a
    board at least as strong as both holdings makes the showdown a tie. *)
Theorem hand_strength_app (cs ds : list card) (r s : Z) :
  hand_strength cs = Ok r ->
  hand_strength ds = Ok s ->
  hand_strength (cs ++ ds) = Ok (Z.max r s) /\
  (forall es t, hand_strength es = Ok t -> r <= s -> t <= s ->
     level cs es ds = true).
Proof.
  intros Hr Hs.
  assert (Happ : forall xs x, hand_strength xs = Ok x ->
            hand_strength (xs ++ ds) = Ok (Z.max x s)).
  { intros xs x (a & rs & Hxs & ->)%hand_strength_inv.
    destruct (hand_strength_inv ds s Hs) as (b & ss & Hds & ->).
    unfold hand_strength. rewrite comprehension_app, Hxs, Hds. cbn.
    by rewrite fold_left_app; cbn; rewrite fold_max_max. }
  split; [by apply Happ|].
  intros es t Ht Hrs Hts. unfold level.
  rewrite (Happ cs r Hr), (Happ es t Ht). lia.
Qed.

Lemma hand_strength_app_witness :
  hand_strength (queens ++ river_board) = Ok (Z.max 10 9) /\
  level queens ace_king ["As"; "Ac"; "2d"; "3c"; "4h"] = true.
Proof.
  split.
  - apply (hand_strength_app queens river_board 10 9); reflexivity.
  - apply (proj2 (hand_strength_app queens ["As"; "Ac"; "2d"; "3c"; "4h"] 10 12
                    eq_refl eq_refl) ace_king 12); [reflexivity | lia | lia].
Defined.

(** ** The equity computation at its edges *)

Lemma deck_left_partition hero_cards villain_cards board :
  NoDup (hero_cards ++ villain_cards ++ board) ->
  Forall valid_card (hero_cards ++ villain_cards ++ board) ->
  deck_left hero_cards villain_cards board
    ++ (hero_cards ++ villain_cards ++ board) ≡ₚ deck.
Proof.
  intros Hnd Hvalid. apply NoDup_Permutation; [|exact deck_NoDup|].
  - apply NoDup_app. split; [apply deck_left_NoDup|]. split; [|done].
    intros c Hc. by apply deck_left_elem in Hc as [_ ?].
  - intros c. rewrite elem_of_app, deck_left_elem. split.
    + intros [[? _]|Hc]; [done|].
      exact (proj1 (Forall_forall _ _) Hvalid c Hc).
    + intros Hc.
      destruct (decide (c ∈ hero_cards ++ villain_cards ++ board));
        [by right | by left].
Qed.

(** X5. When the hole cards and the board are distinct cards of the deck,
    [deck_left] and the dead cards together are the deck, each card once:
    [52 - len(dead)] cards remain.  Whatever the input, at least that many
    remain. *)
Theorem deck_left_is_the_rest hero_cards villain_cards board :
  NoDup (hero_cards ++ villain_cards ++ board) ->
  Forall valid_card (hero_cards ++ villain_cards ++ board) ->
  deck_left hero_cards villain_cards board
    ++ (hero_cards ++ villain_cards ++ board) ≡ₚ deck /\
  (length (deck_left hero_cards villain_cards board)
     + length (hero_cards ++ villain_cards ++ board) = 52)%nat /\
  (forall h v b,
     (52 <= length (deck_left h v b) + length (h ++ v ++ b))%nat).
Proof.
  intros Hnd Hvalid.
  pose proof (deck_left_partition _ _ _ Hnd Hvalid) as Hp.
  split; [done|]. split; [|apply deck_left_length].
  apply Permutation_length in Hp. by rewrite length_app in Hp.
Qed.

Lemma deck_left_is_the_rest_witness :
  length (deck_left king_high queen_high ["3h"; "7c"; "9d"]) = 45%nat.
Proof.
  destruct (deck_left_is_the_rest king_high queen_high ["3h"; "7c"; "9d"])
    as (_ & Hlen & _).
  - apply (bool_decide_unpack _). vm_compute. exact I.
  - apply valid_cards_check. vm_compute. reflexivity.
  - cbn [length app king_high queen_high] in Hlen. lia.
Defined.

Lemma hand_strength_needs_ranks cs :
  returns (hand_strength cs) -> Forall has_rank cs.
Proof.
  unfold hand_strength. intros [r Hr]. apply comprehension_returns.
  destruct (comprehension rank_index cs) as [rs|e]; [by eexists | done].
Qed.

Section equity_edges.

Context {G : Generator}.

Lemma iteration_short_deck hero_cards villain_cards board left st :
  Z.of_nat (length left) < 5 - Z.of_nat (length board) ->
  iteration hero_cards villain_cards board left st = Raise ValueError.
Proof.
  intros Hshort. unfold iteration. rewrite random_sample_bad by lia. done.
Qed.

(** X6. When fewer cards remain in the deck than the board needs, every run
    of at least one iteration raises [ValueError] in its first pass: the
    sampler refuses to draw more cards than the population holds. *)
Theorem short_deck_raises hero_cards villain_cards board n seed g :
  Z.of_nat (length (deck_left hero_cards villain_cards board))
    < 5 - Z.of_nat (length board) ->
  1 <= n ->
  monte_carlo_equity hero_cards villain_cards board n seed g = Raise ValueError.
Proof.
  intros Hshort Hn. unfold monte_carlo_equity, simulate.
  destruct (Z.to_nat n) as [|k] eqn:Hk; [lia|].
  cbn [repeat_loop]. by rewrite iteration_short_deck.
Qed.

(** X7. With a negative iteration count the loop body never runs and the
    function returns 0, for every input: nothing is sampled, no token is
    looked at, and the generator is left as the seeding step left it.  (On
    floats the quotient of 0.0 by a negative count is -0.0, which compares
    equal to 0; the rationals of the model have one zero.) *)
Theorem negative_iterations_return_zero hero_cards villain_cards board n seed g :
  n < 0 ->
  exists q,
    monte_carlo_equity hero_cards villain_cards board n seed g
      = Ok (q, reseed seed g) /\
    (q == 0)%Q.
Proof.
  intros Hn. unfold monte_carlo_equity, simulate.
  replace (Z.to_nat n) with 0%nat by lia. cbn [repeat_loop mbind result_bind
    hero_wins ties rng]. unfold final_ratio.
  destruct (n =? 0) eqn:Hz; [lia|]. cbn [mbind result_bind].
  eexists. split; [done|]. unfold Qdiv. cbn [inject_Z]. by rewrite Qmult_0_l.
Qed.

Lemma iteration_bad_token hero_cards villain_cards board left st :
  ~ Forall has_rank (hero_cards ++ villain_cards ++ board) ->
  exists e, iteration hero_cards villain_cards board left st = Raise e.
Proof.
  intros Hbad. unfold iteration.
  destruct (random_sample (rng st) left (5 - Z.of_nat (length board)))
    as [[s g']|e]; cbn [mbind result_bind]; [|by eexists].
  destruct (hand_strength (hero_cards ++ board ++ s)) as [h|e] eqn:Hh;
    cbn [mbind result_bind]; [|by eexists].
  destruct (hand_strength (villain_cards ++ board ++ s)) as [v|e] eqn:Hv;
    cbn [mbind result_bind]; [|by eexists].
  exfalso. apply Hbad.
  assert (Hh' : Forall has_rank (hero_cards ++ board ++ s))
    by (apply hand_strength_needs_ranks; by eexists).
  assert (Hv' : Forall has_rank (villain_cards ++ board ++ s))
    by (apply hand_strength_needs_ranks; by eexists).
  apply Forall_app in Hh' as [Hh1 Hh2]. apply Forall_app in Hh2 as [Hb _].
  apply Forall_app in Hv' as [Hv1 _].
  rewrite !Forall_app. done.
Qed.

(** X8. A token that does not start with a rank character, anywhere in the
    holdings or on the board, makes every run with a count that is not
    negative raise: no equity is returned for such input. *)
Theorem bad_token_raises hero_cards villain_cards board n seed g :
  ~ Forall has_rank (hero_cards ++ villain_cards ++ board) ->
  0 <= n ->
  exists e,
    monte_carlo_equity hero_cards villain_cards board n seed g = Raise e.
Proof.
  intros Hbad Hn. unfold monte_carlo_equity, simulate.
  destruct (Z.to_nat n) as [|k] eqn:Hk.
  - assert (n = 0) as -> by lia. by eexists.
  - cbn [repeat_loop].
    match goal with |- context [iteration ?h ?v ?b ?l ?st] =>
      destruct (iteration_bad_token h v b l st Hbad) as [e ->] end.
    by exists e.
Qed.

End equity_edges.

Lemma short_deck_raises_witness :
  monte_carlo_equity (G := rot_generator) (take 48 deck) [] [] 3 (Some 7) 0
    = Raise ValueError.
Proof.
  apply (short_deck_raises (G := rot_generator) (take 48 deck) [] [] 3 (Some 7) 0);
    [vm_compute; reflexivity | lia].
Defined.

Lemma negative_iterations_return_zero_witness :
  exists q,
    monte_carlo_equity (G := rot_generator) ["??"] [] (river_board ++ ["Ts"])
      (-3) None 11 = Ok (q, 11) /\
    (q == 0)%Q.
Proof.
  apply (negative_iterations_return_zero (G := rot_generator)
           ["??"] [] (river_board ++ ["Ts"]) (-3) None 11). lia.
Defined.

Lemma bad_token_raises_witness :
  exists e,
    monte_carlo_equity (G := rot_generator) ace_king ["Qs"; "1c"] [] 4 (Some 7) 0
      = Raise e.
Proof.
  apply (bad_token_raises (G := rot_generator) ace_king ["Qs"; "1c"] [] 4 (Some 7) 0);
    [|lia].
  intros Hall. apply Forall_app in Hall as [_ Hall].
  apply Forall_app in Hall as [Hv _].
  apply Forall_cons in Hv as [_ Hv]. apply Forall_cons in Hv as [[r Hr] _].
  discriminate Hr.
Defined.

(** ** Swapping the holdings on any board *)




Section swapped_holdings.

Context {G : Generator} {HG : GeneratorLaws G}.


End swapped_holdings.


Section swapped_equity.

Context {G : Generator} {HG : GeneratorLaws G}.


End swapped_equity.


(** ** One hand *)

Lemma find_app_found {A} (p : A -> bool) (l k : list A) a :
  List.find p l = Some a -> List.find p (l ++ k) = Some a.
Proof.
  induction l as [|x l IH]; cbn; [done|]. by destruct (p x).
Qed.

Section one_hand.

Context {G : Generator}.

(** X10. Only the hero and the first other player of the mapping count:
    when both are there, any players that follow them, whatever their
    cards, leave the result of [process_hand] unchanged. *)
Theorem later_players_are_ignored hand extra args g :
  is_Some (dict_get (players hand) (hero hand)) ->
  is_Some (first_other (players hand) (hero hand)) ->
  NoDup ((players hand ++ extra).*1) ->
  process_hand (with_players hand (players hand ++ extra)) args g
  = process_hand hand args g.
Proof.
  intros [hp Hh] [vp Hv] _. unfold process_hand.
  cbn [with_players players hero board].
  assert (dict_get (players hand ++ extra) (hero hand) = Some hp) as ->.
  { unfold dict_get in *.
    destruct (List.find _ (players hand)) as [kv|] eqn:Hf; [|done].
    by rewrite (find_app_found _ _ _ _ Hf). }
  assert (first_other (players hand ++ extra) (hero hand) = Some vp) as ->.
  { unfold first_other in *.
    destruct (List.find _ (players hand)) as [kv|] eqn:Hf; [|done].
    by rewrite (find_app_found _ _ _ _ Hf). }
  by rewrite Hh, Hv.
Qed.

End one_hand.

Lemma later_players_are_ignored_witness :
  process_hand (G := rot_generator)
    (with_players hand_one
       (players hand_one ++ [("Third"%string, {| name := "Third"; cards := ace_king |})]))
    run_args 0
  = process_hand (G := rot_generator) hand_one run_args 0.
Proof.
  apply (later_players_are_ignored (G := rot_generator) hand_one
           [("Third"%string, {| name := "Third"; cards := ace_king |})] run_args 0).
  - by eexists.
  - by eexists.
  - apply (bool_decide_unpack _). vm_compute. exact I.
Defined.


Section row_bounds.

Context {G : Generator} {HG : GeneratorLaws G}.


End row_bounds.


(** ** The session *)

Section session_edges.

Context {G : Generator}.

Lemma collect_rows_acc hands args acc g :
  collect_rows hands args acc g =
    '(rows, g') ← collect_rows hands args [] g; Ok (acc ++ rows, g').
Proof.
  revert acc g. induction hands as [|h hs IH]; intros acc g.
  - cbn. by rewrite app_nil_r.
  - cbn [collect_rows].
    destruct (process_hand h args g) as [[[row|] g1]|e]; cbn [mbind result_bind];
      [|apply IH|done].
    rewrite (IH (acc ++ [row])), (IH ([] ++ [row])).
    destruct (collect_rows hs args [] g1) as [[rows g2]|e];
      cbn [mbind result_bind]; [|done].
    by rewrite <- app_assoc.
Qed.

(** X12. Nothing catches what a hand raises: when the hands before it go
    through and [process_hand] raises on a hand, [main] raises the same
    exception, whatever hands follow; no row of the session is reported. *)
Theorem failing_hand_aborts_main before hand after args g rows g1 e :
  collect_rows before args [] g = Ok (rows, g1) ->
  process_hand hand args g1 = Raise e ->
  main (before ++ hand :: after) args g = Raise e.
Proof.
  intros Hbefore Hhand. unfold main. rewrite collect_rows_app, Hbefore.
  cbn [mbind result_bind collect_rows]. by rewrite Hhand.
Qed.

Lemma no_qualifying_hand hands args g :
  Forall (fun h => qualifies h = false) hands ->
  main hands args g = Ok ([], None, g).
Proof.
  intros Hall. unfold main.
  assert (collect_rows hands args [] g = Ok ([], g)) as ->; [|done].
  induction Hall as [|h hs Hh _ IH]; [done|].
  cbn [collect_rows]. rewrite (process_hand_skip h args g Hh).
  cbn [mbind result_bind]. apply IH.
Qed.

Lemma seeded_process_hand hand args s g1 g2 :
  seed args = Some s -> s <> 0 -> qualifies hand = true ->
  process_hand hand args g1 = process_hand hand args g2.
Proof.
  intros Hseed Hs (hp & vp & Hh & Hv & Hhc & Hvc)%qualifies_true.
  rewrite !(process_hand_run hand args _ hp vp) by done.
  rewrite Hseed. by rewrite (seeded_equity_deterministic _ _ _ _ s g1 g2).
Qed.

Lemma seeded_collect_rows hands args s :
  seed args = Some s -> s <> 0 ->
  forall g1 g2 rows ga,
    collect_rows hands args [] g1 = Ok (rows, ga) ->
    exists gb, collect_rows hands args [] g2 = Ok (rows, gb).
Proof.
  intros Hseed Hs. induction hands as [|h hs IH]; intros g1 g2 rows ga.
  - cbn. intros [= <- <-]. by eexists.
  - cbn [collect_rows]. destruct (qualifies h) eqn:Hq.
    + rewrite (seeded_process_hand h args s g1 g2) by done.
      intros ->. by eexists.
    + rewrite !(process_hand_skip h args _ Hq). cbn [mbind result_bind].
      apply IH.
Qed.

(** X13. With a seed other than 0 every qualifying hand is evaluated from
    the freshly seeded generator, so its row does not depend on the hands
    around it: the rows of a session are the rows of its first part followed
    by the rows of the rest run on its own. *)
Theorem seeded_session_splits hs1 hs2 args s g g' rows1 sum1 g1 rows2 sum2 g2 :
  seed args = Some s ->
  s <> 0 ->
  main hs1 args g = Ok (rows1, sum1, g1) ->
  main hs2 args g' = Ok (rows2, sum2, g2) ->
  exists g3,
    main (hs1 ++ hs2) args g
      = Ok (rows1 ++ rows2, summarize (rows1 ++ rows2), g3).
Proof.
  intros Hseed Hs H1 H2. unfold main in *.
  destruct (collect_rows hs1 args [] g) as [[r1 ga]|e] eqn:Hc1; [|done].
  destruct (collect_rows hs2 args [] g') as [[r2 gb]|e] eqn:Hc2; [|done].
  cbn [mbind result_bind] in H1, H2.
  injection H1 as <- _ _. injection H2 as <- _ _.
  destruct (seeded_collect_rows hs2 args s Hseed Hs g' ga r2 gb Hc2) as [g3 Hc3].
  exists g3. rewrite collect_rows_app, Hc1. cbn [mbind result_bind].
  rewrite collect_rows_acc, Hc3. done.
Qed.

End session_edges.

Lemma failing_hand_aborts_main_witness :
  main (G := rot_generator) [hand_one; hand_long_board; hand_two] run_args 0
    = Raise ValueError.
Proof.
  eapply (failing_hand_aborts_main (G := rot_generator)
            [hand_one] hand_long_board [hand_two] run_args 0);
    vm_compute; reflexivity.
Defined.

Lemma seeded_session_splits_witness :
  exists rows1 rows2 g3,
    length rows1 = 1%nat /\ length rows2 = 1%nat /\
    main (G := rot_generator) [hand_one; hand_mucked; hand_two] run_args 0
      = Ok (rows1 ++ rows2, summarize (rows1 ++ rows2), g3).
Proof.
  edestruct (seeded_session_splits (G := rot_generator)
               [hand_one] [hand_mucked; hand_two] run_args 74 0 5) as [g3 H3];
    [reflexivity | lia | vm_compute; reflexivity | vm_compute; reflexivity |].
  eexists _, _, g3. split; [|split; [|exact H3]]; reflexivity.
Defined.

(** ** The cumulative series *)

Lemma cumulative_running rows total_net total_ev cum_net cum_ev :
  cumulative rows total_net total_ev cum_net cum_ev
  = (cum_net ++ running (hero_net <$> rows) total_net,
     cum_ev ++ running (ev_contrib <$> rows) total_ev).
Proof.
  revert total_net total_ev cum_net cum_ev.
  induction rows as [|r rows IH]; intros tn te cn ce; cbn.
  - by rewrite !app_nil_r.
  - rewrite IH, <- !app_assoc. done.
Qed.

Lemma running_length l acc : length (running l acc) = length l.
Proof. revert acc. induction l as [|x l IH]; intros acc; cbn; [done|]. by rewrite IH. Qed.

Lemma running_lookup l acc i :
  (i < length l)%nat ->
  running l acc !! i = Some (fold_left Qplus (take (S i) l) acc).
Proof.
  revert acc i. induction l as [|x l IH]; intros acc i Hi; cbn in Hi; [lia|].
  destruct i as [|i]; cbn; [by rewrite take_0|].
  apply IH. lia.
Qed.

(** X14. When [plot_graph] gets past its guard (matplotlib present, at
    least one row), its two series have one point per row, the point of a
    row is the sum of [hero_net] (of [ev_contrib]) over the rows up to and
    including it, and the last points are the totals [main] logs.  Without
    matplotlib or without rows nothing is computed. *)
Theorem plot_series_end_at_totals rows cum_net cum_ev :
  plot_series true rows = Some (cum_net, cum_ev) ->
  length cum_net = length rows /\
  length cum_ev = length rows /\
  (forall i, (i < length rows)%nat ->
     cum_net !! i = Some (py_sum (take (S i) (hero_net <$> rows))) /\
     cum_ev !! i = Some (py_sum (take (S i) (ev_contrib <$> rows)))) /\
  (exists s, summarize rows = Some s /\
             last cum_net = Some (net_total s) /\
             last cum_ev = Some (ev_total s)) /\
  (forall has_mpl, plot_series has_mpl [] = None) /\
  (forall rs, plot_series false rs = None).
Proof.
  intros Hplot.
  assert (Hne : rows <> []) by (by intros ->).
  assert (Hcum : cumulative rows 0 0 [] [] = (cum_net, cum_ev)).
  { destruct rows; [done|]. by injection Hplot. }
  rewrite cumulative_running in Hcum. cbn [app] in Hcum.
  injection Hcum as <- <-.
  rewrite !running_length, !length_fmap. do 2 (split; [done|]).
  assert (Hpt : forall i, (i < length rows)%nat ->
     running (hero_net <$> rows) 0 !! i
       = Some (py_sum (take (S i) (hero_net <$> rows))) /\
     running (ev_contrib <$> rows) 0 !! i
       = Some (py_sum (take (S i) (ev_contrib <$> rows)))).
  { intros i Hi. split; apply running_lookup; by rewrite length_fmap. }
  split; [exact Hpt|]. split; [|split; [done | by intros []]].
  assert (Hlen : (0 < length rows)%nat) by (destruct rows; [done | cbn; lia]).
  destruct (Hpt (pred (length rows))) as [Hn He]; [lia|].
  replace (S (pred (length rows))) with (length rows) in Hn, He by lia.
  rewrite take_ge in Hn, He by (by rewrite length_fmap).
  destruct rows as [|r rows']; [done|]. eexists. split; [done|].
  rewrite !last_lookup, !running_length, !length_fmap.
  cbn [net_total ev_total]. by rewrite Hn, He.
Qed.

Lemma plot_series_end_at_totals_witness :
  exists cum_net cum_ev s,
    plot_series true example_rows = Some (cum_net, cum_ev) /\
    summarize example_rows = Some s /\
    last cum_net = Some (net_total s) /\
    last cum_ev = Some (ev_total s).
Proof.
  destruct (plot_series_end_at_totals example_rows
              (cumulative example_rows 0 0 [] []).1
              (cumulative example_rows 0 0 [] []).2)
    as (_ & _ & _ & (s & Hs & Hn & He) & _); [reflexivity|].
  by eexists _, _, s.
Defined.

(** ** Reading hand histories *)

Lemma stub_hand_skipped h : stub_hand h -> qualifies h = false.
Proof.
  intros (Hhero & Hplayers & _). unfold qualifies, dict_get, first_other.
  by rewrite Hplayers, Hhero.
Qed.

Section parser_facts.

Variable split_hands : string -> list string.
Variable words : string -> list string.
Variable now : nat -> Z.

Lemma parse_blocks_spec blks hands t :
  exists new,
    parse_blocks words now blks hands t = (hands ++ new, (t + length new)%nat) /\
    Forall stub_hand new /\
    hand_id <$> new = omap (fun blk => head (words blk)) blks /\
    date <$> new = now <$> seq t (length new).
Proof.
  revert hands t. induction blks as [|blk blks IH]; intros hands t.
  - exists []. cbn. rewrite app_nil_r, Nat.add_0_r. by repeat split.
  - cbn [parse_blocks omap list_omap]. unfold parse_block.
    destruct (words blk) as [|w ws]; cbn [head].
    + apply IH.
    + match goal with |- context [parse_blocks _ _ _ (hands ++ [?h]) _] =>
        destruct (IH (hands ++ [h]) (S t)) as (new & Hp & Hstub & Hid & Hdate);
        exists (h :: new) end.
      rewrite Hp, <- app_assoc. cbn [app length fmap list_fmap seq].
      rewrite Hid, Hdate. split; [f_equal; lia|].
      split; [|done]. by constructor.
Qed.

Lemma parse_hh_file_stubs text t :
  Forall stub_hand (parse_hh_file split_hands words now text t).1.
Proof.
  unfold parse_hh_file.
  destruct (parse_blocks_spec (tail (split_hands text)) [] t)
    as (new & -> & Hstub & _). done.
Qed.

Lemma parse_files_stubs texts all_hands t :
  Forall stub_hand all_hands ->
  Forall stub_hand (parse_files split_hands words now texts all_hands t).1.
Proof.
  revert all_hands t. induction texts as [|text texts IH]; intros hs t Hhs;
    [done|]. cbn [parse_files].
  pose proof (parse_hh_file_stubs text t) as Hnew.
  destruct (parse_hh_file split_hands words now text t) as [new t'].
  apply IH. by apply Forall_app.
Qed.

Lemma read_paths_stubs fs paths all_hands t :
  Forall stub_hand all_hands ->
  Forall stub_hand (read_paths split_hands words now fs paths all_hands t).1.
Proof.
  revert all_hands t. induction paths as [|p paths IH]; intros hs t Hhs;
    [done|]. cbn [read_paths]. destruct (fs p) as [text|texts|].
  - pose proof (parse_hh_file_stubs text t) as Hnew.
    destruct (parse_hh_file split_hands words now text t) as [new t'].
    apply IH. by apply Forall_app.
  - pose proof (parse_files_stubs texts hs t Hhs) as Hnew.
    destruct (parse_files split_hands words now texts hs t) as [hs' t'].
    by apply IH.
  - by apply IH.
Qed.

(** X15. Whatever the files hold, every hand [read_hands] returns has the
    hero as its only player, without hole cards, an empty board, no rake,
    no pot and no results; so [main] on the hands it reads never evaluates
    an equity, produces no row and no totals, and leaves the generator
    untouched. *)
Theorem read_hands_never_qualify {G : Generator}
    (fs : string -> fs_entry) (paths : list string) (t : nat)
    (args : Args) (g : gen_state) :
  let hands := (read_hands split_hands words now fs paths t).1 in
  Forall stub_hand hands /\
  Forall not_applicable hands /\
  main hands args g = Ok ([], None, g).
Proof.
  intros hands.
  assert (Hstub : Forall stub_hand hands)
    by (by apply read_paths_stubs).
  split; [done|]. split.
  - eapply Forall_impl; [exact Hstub|]. intros h Hh.
    by apply qualifies_false, stub_hand_skipped.
  - apply no_qualifying_hand. eapply Forall_impl; [exact Hstub|].
    intros h Hh. by apply stub_hand_skipped.
Qed.

(** X16. [parse_hh_file] makes one hand for each block after the first
    separator that holds a word, in order, with that block's first word as
    its id; the text before the first separator and blocks without a word
    yield nothing and do not stop the parse; the clock is read once for
    each hand made. *)
Theorem parse_hh_file_hands text t :
  let '(hands, t') := parse_hh_file split_hands words now text t in
  hand_id <$> hands
    = omap (fun blk => head (words blk)) (tail (split_hands text)) /\
  date <$> hands = now <$> seq t (length hands) /\
  t' = (t + length hands)%nat.
Proof.
  unfold parse_hh_file.
  destruct (parse_blocks_spec (tail (split_hands text)) [] t)
    as (new & -> & _ & Hid & Hdate). by cbn [app].
Qed.

End parser_facts.
